(** * Race physics and progression engine of SailingRegatta4P

    Shallow embedding of the parts of the client that the race engine is made
    of:
    - [RaceStore]: the zustand store of [client/src/lib/stores/useRace.tsx]
      (boats, race stages, results, [finishRace]);
    - [Canvas]: the per-tick simulation written inline in the [draw] loop of
      [client/src/components/game/SimpleGameCanvas.tsx] (wind efficiency,
      wind shadow, boat-boat collisions, boundary clamping, stage
      transitions);
    - [Wind]: [updateWindDirection] of [client/src/lib/stores/useWind.tsx].

    JavaScript numbers are modelled as real numbers where the code does
    geometry and as integers ([Z]) where the code only handles
    millisecond times and counters. *)

From Stdlib Require Import ZArith Reals Lra Lia List String Ascii Bool.
From Stdlib Require Import Sorting.Sorted Permutation DecimalString.
Import ListNotations.

(* ------------------------------------------------------------------ *)
(** ** The race store ([useRace.tsx]) *)

Module RaceStore.

(** [export type RaceStage = "Not Started" | ... | "Finished"] *)
Inductive RaceStage :=
| NotStarted
| StartLeg
| UpwindLeg
| DownwindLeg
| SecondUpwindLeg
| FinishLeg
| Finished.

(** Position of a stage in the course order. *)
Definition stage_index (s : RaceStage) : nat :=
  match s with
  | NotStarted => 0
  | StartLeg => 1
  | UpwindLeg => 2
  | DownwindLeg => 3
  | SecondUpwindLeg => 4
  | FinishLeg => 5
  | Finished => 6
  end.

(** String comparison [stage === "..."] on the stage strings. *)
Definition stage_eqb (a b : RaceStage) : bool :=
  Nat.eqb (stage_index a) (stage_index b).

(** [export type RacePhase = "pre-start" | "starting" | "racing" | "finished"] *)
Inductive RacePhase := PreStart | Starting | Racing | PhaseFinished.

Inductive Tack := Port | Starboard.

(** [export interface Boat]. *)
Record Boat := mkBoat {
  id : string;
  userId : Z;
  username : string;
  position : R * R;
  rotation : R;
  tack : Tack;
  speed : R;
  sailPosition : R;
  lastCheckpoint : Z;
  isLocalPlayer : bool
}.

(** [export interface RaceResult]; [boatNumber] holds the number produced by
    [parseInt], [None] standing for [NaN]. *)
Record RaceResult := mkResult {
  r_userId : Z;
  r_username : string;
  finishTime : Z;
  r_position : nat;
  boatNumber : option Z
}.

(** The fields of [RaceState] that [finishRace] reads or writes. *)
Record RaceState := mkState {
  phase : RacePhase;
  boats : list Boat;
  results : list RaceResult;
  boat1Stage : RaceStage;
  boat2Stage : RaceStage;
  boat3Stage : RaceStage;
  boat4Stage : RaceStage
}.

(** [createInitialBoat(userId, username, index, isLocalPlayer)]. *)
Definition digit_string (n : nat) : string :=
  String (ascii_of_nat (48 + n)) EmptyString.

Definition createInitialBoat (uid : Z) (uname : string) (index : nat)
    (local : bool) : Boat :=
  mkBoat ("boat-" ++ digit_string (S index))%string uid uname
    (IZR (500 + Z.of_nat index * 120), 400%R) 0%R Starboard 0%R 100%R 0%Z local.

(** *** [parseInt(boatId.split('-')[1])] *)

Definition is_dash (c : ascii) : bool := Ascii.eqb c "-"%char.

(** The field after the first ['-'], up to the next one. *)
Fixpoint take_until_dash (s : string) : string :=
  match s with
  | EmptyString => EmptyString
  | String c r => if is_dash c then EmptyString else String c (take_until_dash r)
  end.

(** [s.split('-')[1]]; [None] is [undefined] (no dash in [s]). *)
Fixpoint second_field (s : string) : option string :=
  match s with
  | EmptyString => None
  | String c r => if is_dash c then Some (take_until_dash r) else second_field r
  end.

Definition digit_value (c : ascii) : option Z :=
  let n := nat_of_ascii c in
  if (48 <=? n) && (n <=? 57) then Some (Z.of_nat (n - 48)) else None.

(** [parseInt] on a string of decimal digits: the value of the longest digit
    prefix, [None] ([NaN]) when there is no leading digit. *)
Fixpoint parse_digits (s : string) (acc : option Z) : option Z :=
  match s with
  | EmptyString => acc
  | String c r =>
      match digit_value c with
      | Some d =>
          let a := match acc with Some a => a | None => 0%Z end in
          parse_digits r (Some (a * 10 + d)%Z)
      | None => acc
      end
  end.

Definition boat_number (boatId : string) : option Z :=
  match second_field boatId with
  | Some f => parse_digits f None
  | None => None
  end.

(** [===] between two numbers, [NaN] being unequal to everything. *)
Definition num_eqb (a b : option Z) : bool :=
  match a, b with
  | Some x, Some y => Z.eqb x y
  | _, _ => false
  end.

(** *** Per-boat stage fields *)

(** The stage field that [finishRace] consults for [boatId]. *)
Definition stage_of (st : RaceState) (boatId : string) : option RaceStage :=
  if String.eqb boatId "boat-1" then Some (boat1Stage st)
  else if String.eqb boatId "boat-2" then Some (boat2Stage st)
  else if String.eqb boatId "boat-3" then Some (boat3Stage st)
  else if String.eqb boatId "boat-4" then Some (boat4Stage st)
  else None.

(** [set({ boatNStage: s })] for the boat named [boatId] (nothing for
    other ids). *)
Definition set_stage (st : RaceState) (boatId : string) (s : RaceStage)
    : RaceState :=
  let '(mkState ph bs rs s1 s2 s3 s4) := st in
  if String.eqb boatId "boat-1" then mkState ph bs rs s s2 s3 s4
  else if String.eqb boatId "boat-2" then mkState ph bs rs s1 s s3 s4
  else if String.eqb boatId "boat-3" then mkState ph bs rs s1 s2 s s4
  else if String.eqb boatId "boat-4" then mkState ph bs rs s1 s2 s3 s
  else st.

Definition set_results (st : RaceState) (rs : list RaceResult) : RaceState :=
  let '(mkState ph bs _ s1 s2 s3 s4) := st in mkState ph bs rs s1 s2 s3 s4.

Definition set_phase (st : RaceState) (ph : RacePhase) : RaceState :=
  let '(mkState _ bs rs s1 s2 s3 s4) := st in mkState ph bs rs s1 s2 s3 s4.

(** *** Sorting and ranking of the results *)

(** [allResults.sort((a, b) => a.finishTime - b.finishTime)]: the sort of
    [Array.prototype.sort] is stable, and a stable sort by this comparator
    is the insertion sort below (an element goes before the first element
    that is not faster). *)
Fixpoint insert_by_time (r : RaceResult) (l : list RaceResult)
    : list RaceResult :=
  match l with
  | [] => [r]
  | h :: t =>
      if Z.leb (finishTime r) (finishTime h) then r :: h :: t
      else h :: insert_by_time r t
  end.

Fixpoint sort_by_time (l : list RaceResult) : list RaceResult :=
  match l with
  | [] => []
  | r :: t => insert_by_time r (sort_by_time t)
  end.

Definition with_position (r : RaceResult) (p : nat) : RaceResult :=
  mkResult (r_userId r) (r_username r) (finishTime r) p (boatNumber r).

(** [allResults.map((result, index) => ({...result, position: index + 1}))] *)
Fixpoint assign_positions (n : nat) (l : list RaceResult) : list RaceResult :=
  match l with
  | [] => []
  | r :: t => with_position r n :: assign_positions (S n) t
  end.

(** *** [finishRace(boatId, time)] *)
Definition finishRace (st : RaceState) (boatId : string) (time : Z)
    : RaceState :=
  match find (fun b => String.eqb (id b) boatId) (boats st) with
  | None => st
  | Some boat =>
      let bn := boat_number boatId in
      if existsb (fun r => Z.eqb (r_userId r) (userId boat)
                           && num_eqb (boatNumber r) bn) (results st)
      then st
      else
        let hasCompletedAllStages :=
          match stage_of st boatId with
          | Some s => stage_eqb s FinishLeg || stage_eqb s Finished
          | None => false
          end in
        if negb hasCompletedAllStages then set_stage st boatId Finished
        else
          let allResults :=
            results st ++ [mkResult (userId boat) (username boat) time 0 bn] in
          let updatedResults := assign_positions 1 (sort_by_time allResults) in
          let st1 := set_stage (set_results st updatedResults) boatId Finished in
          let activeBoatCount := List.length (boats st) in
          let finishedBoatsCount := List.length (results st) + 1 in
          if Nat.leb activeBoatCount finishedBoatsCount
          then set_phase st1 PhaseFinished
          else st1
  end.

(** A sequence of [finishRace] calls. *)
Fixpoint finish_all (st : RaceState) (calls : list (string * Z)) : RaceState :=
  match calls with
  | [] => st
  | (b, t) :: rest => finish_all (finishRace st b t) rest
  end.

(** Two boats as [initializeRace] builds them for [boatCount = 2]. *)
Definition two_boats : list Boat :=
  [createInitialBoat 1 "Player 1" 0 true; createInitialBoat 1 "Boat 2" 1 false].

End RaceStore.

(* ------------------------------------------------------------------ *)
(** ** The per-tick simulation ([draw] in [SimpleGameCanvas.tsx]) *)

Module Canvas.
Import RaceStore.
Local Open Scope R_scope.

(** *** [Math.atan2] *)
Definition atan2 (y x : R) : R :=
  if Rlt_dec 0 x then atan (y / x)
  else if Rlt_dec x 0 then
    (if Rle_dec 0 y then atan (y / x) + PI else atan (y / x) - PI)
  else if Rlt_dec 0 y then PI / 2
  else if Rlt_dec y 0 then - (PI / 2)
  else 0.

(** [Math.sqrt(Math.pow(a.x - b.x, 2) + Math.pow(a.y - b.y, 2))] *)
Definition dist (ax ay bx by' : R) : R :=
  sqrt ((ax - bx) ^ 2 + (ay - by') ^ 2).

(** *** Wind efficiency of a boat (boat 1 block, lines 800-929; the
    blocks of boats 2, 3 and 4 are the same code on their own state) *)

(** [let relativeAngle = Math.abs(windDirection - boatDirection);
     if (relativeAngle > 180) relativeAngle = 360 - relativeAngle;] *)
Definition relative_angle (windDirection boatDirection : R) : R :=
  let a := Rabs (windDirection - boatDirection) in
  if Rlt_dec 180 a then 360 - a else a.

(** The five-band efficiency table. *)
Definition band_efficiency (relativeAngle : R) : R :=
  if Rlt_dec relativeAngle 30 then 0
  else if Rlt_dec relativeAngle 60 then 0.5
  else if Rlt_dec relativeAngle 120 then 1
  else if Rlt_dec relativeAngle 150 then 0.8
  else 0.6.

(** A wind puff of the [windPuffs] state. *)
Record Puff := mkPuff {
  puff_x : R;
  puff_y : R;
  puff_width : R;
  puff_height : R;
  speedBoost : R;
  opacity : R
}.

(** Elliptical membership: [distance < 1]. *)
Definition in_puff (bx by' : R) (p : Puff) : bool :=
  if Rlt_dec (sqrt (((bx - puff_x p) / (puff_width p / 2)) ^ 2 +
                    ((by' - puff_y p) / (puff_height p / 2)) ^ 2)) 1
  then true else false.

(** [for (const puff of windPuffs) { if (distance < 1) { if (relativeAngle >= 30)
     windEfficiency += puff.speedBoost; break; } }] *)
Fixpoint apply_puffs (bx by' relativeAngle eff : R) (puffs : list Puff) : R :=
  match puffs with
  | [] => eff
  | p :: rest =>
      if in_puff bx by' p then
        (if Rle_dec 30 relativeAngle then eff + speedBoost p else eff)
      else apply_puffs bx by' relativeAngle eff rest
  end.

(** [if (isInWindShadow) windEfficiency = Math.max(0.1, windEfficiency - 0.2);] *)
Definition shadow_penalty (isInWindShadow : bool) (eff : R) : R :=
  if isInWindShadow then Rmax 0.1 (eff - 0.2) else eff.

(** The efficiency the block computes, from the wind direction, the boat's
    heading and position, its wind-shadow flag and the puffs. *)
Definition wind_efficiency (windDirection rotation bx by' : R)
    (isInWindShadow : bool) (puffs : list Puff) : R :=
  let relativeAngle := relative_angle windDirection rotation in
  let e0 := band_efficiency relativeAngle in
  let e1 := shadow_penalty isInWindShadow e0 in
  apply_puffs bx by' relativeAngle e1 puffs.

(** [const maxSpeed = 50 * windEfficiency;] *)
Definition max_speed (windDirection rotation bx by' : R)
    (isInWindShadow : bool) (puffs : list Puff) : R :=
  50 * wind_efficiency windDirection rotation bx by' isInWindShadow puffs.

(** [speed: Math.min(maxSpeed, prev.speed + acceleration * windEfficiency)]
    with [acceleration = 50 * deltaTime]. *)
Definition next_speed (windDirection rotation bx by' : R)
    (isInWindShadow : bool) (puffs : list Puff) (prevSpeed deltaTime : R) : R :=
  let e := wind_efficiency windDirection rotation bx by' isInWindShadow puffs in
  Rmin (50 * e) (prevSpeed + (50 * deltaTime) * e).

(** *** [isInTurbulenceZone] (lines 120-156) *)
Definition isInTurbulenceZone (singleBoatMode : bool) (boatPos blockingBoatPos : R * R)
    (blockingBoatRotation shadowLength : R) : bool :=
  if singleBoatMode then false else
  let '(bx, by') := boatPos in
  let '(kx, ky) := blockingBoatPos in
  if Rle_dec by' ky then false else
  let distance := dist bx by' kx ky in
  if Rlt_dec shadowLength distance then false else
  let shadowWidth := shadowLength * 0.5 in
  let widthAtDistance := (distance / shadowLength) * shadowWidth in
  if Rlt_dec (Rabs (bx - kx)) widthAtDistance then true else false.

(** *** Candidate position and boundary clamping (lines 931-948) *)

(** [vx + currentVx], [vy + currentVy] added to the position. *)
Definition candidate_position (x y rotation speed currentDirection currentSpeed
    deltaTime : R) : R * R :=
  let radians := rotation * PI / 180 in
  let vx := sin radians * speed * deltaTime in
  let vy := - cos radians * speed * deltaTime in
  let currentRadians := (currentDirection + 180) * PI / 180 in
  let currentVx := sin currentRadians * currentSpeed * 10 * deltaTime in
  let currentVy := - cos currentRadians * currentSpeed * 10 * deltaTime in
  (x + vx + currentVx, y + vy + currentVy).

(** [if (v < boundaryMargin) v = boundaryMargin;
     else if (v > size - boundaryMargin) v = size - boundaryMargin;] *)
Definition clamp_axis (v boundaryMargin size : R) : R :=
  if Rlt_dec v boundaryMargin then boundaryMargin
  else if Rlt_dec (size - boundaryMargin) v then size - boundaryMargin
  else v.

(** Window-derived sizes: [boatRadius = Math.min(innerWidth, innerHeight) * 0.015],
    [canvas.width = innerWidth * 1.1], [canvas.height = innerHeight * 1.1],
    [boundaryMargin = boatRadius * 2]. *)
Definition boatRadius (innerWidth innerHeight : R) : R :=
  Rmin innerWidth innerHeight * 0.015.
Definition canvas_width (innerWidth : R) : R := innerWidth * 1.1.
Definition canvas_height (innerHeight : R) : R := innerHeight * 1.1.
Definition boundaryMargin (innerWidth innerHeight : R) : R :=
  boatRadius innerWidth innerHeight * 2.

(** One boat's kinematic update: candidate position, then clamping. *)
Definition kinematic_update (innerWidth innerHeight : R)
    (x y rotation speed currentDirection currentSpeed deltaTime : R) : R * R :=
  let '(nx, ny) :=
    candidate_position x y rotation speed currentDirection currentSpeed deltaTime in
  let m := boundaryMargin innerWidth innerHeight in
  (clamp_axis nx m (canvas_width innerWidth),
   clamp_axis ny m (canvas_height innerHeight)).

(** *** Boat-boat collision (lines 1472-1548) *)

(** [BoatCollisionInfo] *)
Record CollisionInfo := mkCollision {
  c_id : nat;
  c_x : R;
  c_y : R;
  c_speed : R
}.

(** The body of the pair loop for one pair [(boat1, boat2)]: when the
    candidate positions overlap, the new position and damped speed of each
    of the two boats ([newBoatNXWithMarks], [boatNSpeedAdjusted]). *)
Definition resolve_pair (boatRadius : R) (b1 b2 : CollisionInfo)
    : option (CollisionInfo * CollisionInfo) :=
  let distance := dist (c_x b1) (c_y b1) (c_x b2) (c_y b2) in
  if Rlt_dec distance (boatRadius * 2) then
    let collisionAngle := atan2 (c_y b2 - c_y b1) (c_x b2 - c_x b1) in
    let pushDistance := Rmax ((boatRadius * 2 - distance) * 0.75)
                             (boatRadius * 0.25) in
    let pushX := cos collisionAngle * pushDistance in
    let pushY := sin collisionAngle * pushDistance in
    Some (mkCollision (c_id b1) (c_x b1 - pushX) (c_y b1 - pushY) (c_speed b1 * 0.95),
          mkCollision (c_id b2) (c_x b2 + pushX) (c_y b2 + pushY) (c_speed b2 * 0.95))
  else None.

(** *** Race stage progression (lines 2097-2945) *)

(** Course geometry read by the stage checks. *)
Record Course := mkCourse {
  sl_x1 : R;
  sl_x2 : R;
  sl_y1 : R;
  top_x : R;
  top_y : R;
  bottom_x : R;
  bottom_y : R;
  course_boatRadius : R
}.

(** What a tick reads of one boat: its position, heading and its
    [boatNFinishedRef.current] flag. *)
Record BoatObs := mkObs {
  o_x : R;
  o_y : R;
  o_rotation : R;
  finishedRef : bool
}.

Definition Rltb (a b : R) : bool := if Rlt_dec a b then true else false.
Definition Rleb (a b : R) : bool := if Rle_dec a b then true else false.

(** The stage checks of one boat for one tick: the [if (boatNStage === ...)]
    blocks test the stage read at the start of the tick, so at most one of
    them fires. The four boats run the same checks. *)
Definition stage_tick (c : Course) (o : BoatObs) (s : RaceStage) : RaceStage :=
  let r := course_boatRadius c in
  match s with
  | StartLeg =>
      let isNearStartLine := Rltb (Rabs (o_y o - sl_y1 c)) (r * 3) in
      let isBetweenPosts := Rleb (sl_x1 c - r) (o_x o) && Rleb (o_x o) (sl_x2 c + r) in
      let isMovingUpward := Rltb 260 (o_rotation o) || Rltb (o_rotation o) 100 in
      if isNearStartLine && isBetweenPosts && isMovingUpward then UpwindLeg else s
  | UpwindLeg =>
      if Rleb (o_y o) (top_y c) && Rleb (Rabs (o_x o - top_x c)) (r * 2)
      then DownwindLeg else s
  | DownwindLeg =>
      if Rleb (bottom_y c) (o_y o) && Rleb (Rabs (o_x o - bottom_x c)) (r * 2)
      then SecondUpwindLeg else s
  | SecondUpwindLeg =>
      if Rleb (o_y o) (top_y c) && Rleb (Rabs (o_x o - top_x c)) (r * 2)
      then FinishLeg else s
  | FinishLeg =>
      if negb (finishedRef o) then
        let hasMatchingYPosition := Rltb (Rabs (o_y o - sl_y1 c)) 20 in
        let isBetweenPosts := Rleb (sl_x1 c) (o_x o) && Rleb (o_x o) (sl_x2 c) in
        if isBetweenPosts && hasMatchingYPosition then Finished else s
      else s
  | _ => s
  end.

(** The stage field of boat [k]. *)
Definition boat_stage (st : RaceState) (k : nat) : RaceStage :=
  match k with
  | 1 => boat1Stage st
  | 2 => boat2Stage st
  | 3 => boat3Stage st
  | _ => boat4Stage st
  end.

Definition boat_key (k : nat) : string :=
  match k with
  | 1 => "boat-1" | 2 => "boat-2" | 3 => "boat-3" | _ => "boat-4"
  end.

(** Steps of the race that touch the stages, apart from [initializeRace],
    [resetRace] and the race-start effect: the per-tick force-set of
    [Not Started] boats to [Start Leg], the per-tick checks of one boat, and
    a [finishRace] call. *)
Inductive StageEvent :=
| ForceStart (boatCount : nat)
| Tick (k : nat) (c : Course) (o : BoatObs)
| FinishCall (boatId : string) (time : Z).

(** [if (raceState.boatNStage === "Not Started") useRace.setState({ boatNStage: "Start Leg" })],
    boats 2 to 4 only when [boatCount >= N]. *)
Definition force_start (boatCount : nat) (st : RaceState) : RaceState :=
  let st1 := if stage_eqb (boat1Stage st) NotStarted
             then set_stage st "boat-1" StartLeg else st in
  let st2 := if (2 <=? boatCount)%nat && stage_eqb (boat2Stage st) NotStarted
             then set_stage st1 "boat-2" StartLeg else st1 in
  let st3 := if (3 <=? boatCount)%nat && stage_eqb (boat3Stage st) NotStarted
             then set_stage st2 "boat-3" StartLeg else st2 in
  if (4 <=? boatCount)%nat && stage_eqb (boat4Stage st) NotStarted
  then set_stage st3 "boat-4" StartLeg else st3.

Definition is_racing (p : RacePhase) : bool :=
  match p with Racing => true | _ => false end.

(** One step; the tick work runs under [if (phase === "racing")]. *)
Definition stage_step (st : RaceState) (ev : StageEvent) : RaceState :=
  match ev with
  | ForceStart bc => if is_racing (phase st) then force_start bc st else st
  | Tick k c o =>
      if is_racing (phase st)
      then set_stage st (boat_key k) (stage_tick c o (boat_stage st k))
      else st
  | FinishCall b t => finishRace st b t
  end.

Fixpoint stage_run (st : RaceState) (evs : list StageEvent) : RaceState :=
  match evs with
  | [] => st
  | ev :: rest => stage_run (stage_step st ev) rest
  end.

End Canvas.

(* ------------------------------------------------------------------ *)
(** ** Wind direction shifts ([useWind.tsx]) *)

Module Wind.
Local Open Scope R_scope.

(** [export type Season = 'sanfrancisco' | 'longbeach' | 'newportharbor'] *)
Inductive Season := sanfrancisco | longbeach | newportharbor.

Inductive ChangeSpeed := slow | medium | rapid.

(** The two fields of [LocationWindSettings] that [updateWindDirection]
    reads. *)
Record LocationWindSettings := mkSettings {
  windDirectionRange : R;
  windChangeSpeed : ChangeSpeed
}.

Definition locationSettings (s : Season) : LocationWindSettings :=
  match s with
  | sanfrancisco => mkSettings 10 medium
  | longbeach => mkSettings 10 medium
  | newportharbor => mkSettings 20 rapid
  end.

Definition shiftMagnitude (s : Season) : R :=
  match windChangeSpeed (locationSettings s) with
  | slow => 0.5
  | medium => 1
  | rapid => match s with newportharbor => 4 | _ => 2 end
  end.

(** [randomShift], from the two [Math.random()] draws of the branch taken
    ([r1] decides the sign, [r2] the magnitude). The code's fallback branch
    for other venues cannot be taken: [Season] has these three values. *)
Definition randomShift (s : Season) (r1 r2 : R) : R :=
  match s with
  | newportharbor => if Rlt_dec 0.5 r1 then 2 else -2
  | sanfrancisco =>
      if Rlt_dec r1 0.6 then - (r2 * shiftMagnitude s + 0.5)
      else r2 * shiftMagnitude s + 0.5
  | longbeach => (if Rlt_dec 0.5 r1 then 1 else -1) * (r2 * shiftMagnitude s)
  end.

(** JavaScript's [%]: the remainder of the truncated division. *)
Definition trunc (x : R) : Z :=
  if Rle_dec 0 x then Int_part x else (- Int_part (- x))%Z.

Definition js_rem (x m : R) : R := x - m * IZR (trunc (x / m)).

(** Lines 261-300 of [updateWindDirection]. *)
Definition shift_direction (range direction shift : R) : R :=
  let nd0 := js_rem (direction + shift) 360 in
  let nd := if Rlt_dec nd0 0 then nd0 + 360 else nd0 in
  if Req_EM_T nd 0 then 0
  else if Req_EM_T nd 360 then 0
  else if Rlt_dec 0 nd then
    (if Rle_dec nd 180 then (if Rlt_dec range nd then range else nd)
     else if Rlt_dec nd 360 then
       (if Rlt_dec nd (360 - range) then 360 - range else nd)
     else nd)
  else nd.

(** [updateWindDirection()] at venue [s] with draws [r1], [r2]. *)
Definition updateWindDirection (s : Season) (direction r1 r2 : R) : R :=
  shift_direction (windDirectionRange (locationSettings s)) direction
    (randomShift s r1 r2).

Fixpoint update_many (s : Season) (direction : R) (draws : list (R * R)) : R :=
  match draws with
  | [] => direction
  | (r1, r2) :: rest => update_many s (updateWindDirection s direction r1 r2) rest
  end.

(** The allowed band [[0, range] ∪ [360 - range, 360)]. *)
Definition in_wind_range (range d : R) : Prop :=
  (0 <= d <= range) \/ (360 - range <= d < 360).

End Wind.

(* ------------------------------------------------------------------ *)
(** ** The rest of the race store ([useRace.tsx]) *)

Module RaceStoreExt.
Import RaceStore.

(** The fields of the signed-in [User] row ([shared/schema.ts]) that
    [initializeRace] reads; the custom boat names are nullable text. *)
Record User := mkUser {
  u_id : Z;
  u_username : string;
  boat1Name : option string;
  boat2Name : option string;
  boat3Name : option string;
  boat4Name : option string
}.

(** The whole store: the fields of [RaceState] that [finishRace] uses, and
    the remaining ones. [startLine] and [marks] are left out: no action
    writes them. *)
Record Store := mkStore {
  race : RaceState;
  startTime : option Z;
  timeRemaining : Z;
  raceTime : Z;
  localBoat : option Boat
}.

(** The store's initial values. *)
Definition initialStore : Store :=
  mkStore (mkState PreStart [] [] NotStarted NotStarted NotStarted NotStarted)
    None 180 0 None.

(** The characters [String.prototype.trim] removes, among the code units
    [0..255]: tab, line feed, vertical tab, form feed, carriage return,
    space and no-break space. *)
Definition is_js_space (c : ascii) : bool :=
  let n := nat_of_ascii c in
  ((9 <=? n) && (n <=? 13)) || (n =? 32) || (n =? 160).

(** [s.trim()] is not empty. *)
Fixpoint has_non_space (s : string) : bool :=
  match s with
  | EmptyString => false
  | String c r => negb (is_js_space c) || has_non_space r
  end.

(** [authUser?.boatNName && authUser.boatNName.trim() ? authUser.boatNName : fallback] *)
Definition custom_name (name : option string) (fallback : string) : string :=
  match name with
  | Some s => if has_non_space s then s else fallback
  | None => fallback
  end.

Definition user_field (authUser : option User) (f : User -> option string)
    : option string :=
  match authUser with Some u => f u | None => None end.

(** [authUser?.id || 1] *)
Definition actual_user_id (authUser : option User) : Z :=
  match authUser with
  | Some u => if Z.eqb (u_id u) 0 then 1%Z else u_id u
  | None => 1%Z
  end.

(** [initializeRace()] with the signed-in user [authUser] and the
    [boatCount] of the game settings. *)
Definition initializeRace (authUser : option User) (boatCount : nat) (st : Store)
    : Store :=
  let uname := match authUser with
               | Some u => if String.eqb (u_username u) "" then "Player 1"%string
                           else u_username u
               | None => "Player 1"%string
               end in
  let actualUserId := actual_user_id authUser in
  let b1 := createInitialBoat actualUserId
              (custom_name (user_field authUser boat1Name) uname) 0 true in
  let b2 := createInitialBoat actualUserId
              (custom_name (user_field authUser boat2Name) "Boat 2") 1 false in
  let b3 := createInitialBoat actualUserId
              (custom_name (user_field authUser boat3Name) "Boat 3") 2 false in
  let b4 := createInitialBoat actualUserId
              (custom_name (user_field authUser boat4Name) "Boat 4") 3 false in
  let bs := b1 :: (if 1 <? boatCount then
                     b2 :: (if 2 <? boatCount then
                              b3 :: (if 3 <? boatCount then [b4] else [])
                            else [])
                   else []) in
  mkStore (mkState PreStart bs [] NotStarted NotStarted NotStarted NotStarted)
    (startTime st) 180 (raceTime st) (Some b1).

(** [startCountdown()] *)
Definition startCountdown (st : Store) : Store :=
  let '(mkState _ bs rs s1 s2 s3 s4) := race st in
  mkStore (mkState Starting bs rs s1 s2 s3 s4) None 180 (raceTime st) (localBoat st).

(** [startRace()], [now] being [Date.now()]. *)
Definition startRace (now : Z) (st : Store) : Store :=
  let '(mkState _ bs rs s1 s2 s3 s4) := race st in
  mkStore (mkState Racing bs rs s1 s2 s3 s4) (Some now) (timeRemaining st)
    (raceTime st) (localBoat st).

(** [resetRace()] *)
Definition resetRace (st : Store) : Store :=
  mkStore (mkState PreStart [] [] NotStarted NotStarted NotStarted NotStarted)
    None 180 0 None.

(** [Partial<Boat>]: [None] is a key the update object does not have. *)
Record BoatUpdate := mkUpdate {
  upd_id : option string;
  upd_userId : option Z;
  upd_username : option string;
  upd_position : option (R * R);
  upd_rotation : option R;
  upd_tack : option Tack;
  upd_speed : option R;
  upd_sailPosition : option R;
  upd_lastCheckpoint : option Z;
  upd_isLocalPlayer : option bool
}.

Definition over {A} (o : option A) (d : A) : A :=
  match o with Some v => v | None => d end.

(** [{ ...boat, ...updates }] *)
Definition apply_update (b : Boat) (u : BoatUpdate) : Boat :=
  mkBoat (over (upd_id u) (id b)) (over (upd_userId u) (userId b))
    (over (upd_username u) (username b)) (over (upd_position u) (position b))
    (over (upd_rotation u) (rotation b)) (over (upd_tack u) (tack b))
    (over (upd_speed u) (speed b)) (over (upd_sailPosition u) (sailPosition b))
    (over (upd_lastCheckpoint u) (lastCheckpoint b))
    (over (upd_isLocalPlayer u) (isLocalPlayer b)).

Definition set_boats (st : RaceState) (bs : list Boat) : RaceState :=
  let '(mkState ph _ rs s1 s2 s3 s4) := st in mkState ph bs rs s1 s2 s3 s4.

(** [updateBoat(boatId, updates)] *)
Definition updateBoat (st : Store) (boatId : string) (u : BoatUpdate) : Store :=
  mkStore
    (set_boats (race st)
       (map (fun b => if String.eqb (id b) boatId then apply_update b u else b)
          (boats (race st))))
    (startTime st) (timeRemaining st) (raceTime st)
    (match localBoat st with
     | Some lb => if String.eqb (id lb) boatId then Some (apply_update lb u)
                  else Some lb
     | None => None
     end).

Definition with_local (st : Store) (lb : Boat) : Store :=
  mkStore (race st) (startTime st) (timeRemaining st) (raceTime st) (Some lb).

(** [setDirection(direction)] *)
Definition setDirection (st : Store) (direction : R) : Store :=
  match localBoat st with
  | Some lb =>
      with_local st (mkBoat (id lb) (userId lb) (username lb) (position lb)
                       direction (tack lb) (speed lb) (sailPosition lb)
                       (lastCheckpoint lb) (isLocalPlayer lb))
  | None => st
  end.

(** The [tack] action: [localBoat.tack === "port" ? "starboard" : "port"]. *)
Definition tackAction (st : Store) : Store :=
  match localBoat st with
  | Some lb =>
      let newTack := match tack lb with Port => Starboard | Starboard => Port end in
      with_local st (mkBoat (id lb) (userId lb) (username lb) (position lb)
                       (rotation lb) newTack (speed lb) (sailPosition lb)
                       (lastCheckpoint lb) (isLocalPlayer lb))
  | None => st
  end.

(** [trimSail(position)] *)
Definition trimSail (st : Store) (pos : R) : Store :=
  match localBoat st with
  | Some lb =>
      with_local st (mkBoat (id lb) (userId lb) (username lb) (position lb)
                       (rotation lb) (tack lb) (speed lb) pos
                       (lastCheckpoint lb) (isLocalPlayer lb))
  | None => st
  end.

(** The finish-line branch of boat [k] in [draw] ([SimpleGameCanvas.tsx],
    boat 1 at lines 2310-2333, boats 2 to 4 alike):
    [useRace.setState({ boatNStage: "Finished" })], then
    [finishRace("boat-N", finishTime)] when [boats.find(b => b.id === "boat-N")]
    finds a boat. *)
Definition finish_line_handler (st : RaceState) (k : nat) (finishTime : Z)
    : RaceState :=
  let st1 := set_stage st (Canvas.boat_key k) Finished in
  match find (fun b => String.eqb (id b) (Canvas.boat_key k)) (boats st1) with
  | Some _ => finishRace st1 (Canvas.boat_key k) finishTime
  | None => st1
  end.

End RaceStoreExt.

(* ------------------------------------------------------------------ *)
(** ** The venue store ([useSeason.tsx]) *)

Module SeasonStore.
Import Wind.
Local Open Scope R_scope.

(** The non-visual fields of [seasonConfig[season]]; the two colours are
    unused by the simulation. *)
Record SeasonConfig := mkSeasonConfig {
  windShiftRange : R;
  windShiftSpeed : R;
  gusts : bool;
  gustProbability : R;
  gustStrength : R;
  puffFrequency : R;
  puffSize : R;
  puffOpacity : R;
  windVariability : R
}.

Definition seasonConfig (s : Season) : SeasonConfig :=
  match s with
  | sanfrancisco => mkSeasonConfig 25 0.9 true 0.4 1.8 0.25 0.9 0.9 0.9
  | longbeach => mkSeasonConfig 10 0.5 false 0.05 1.0 0.1 1.0 0.6 0.4
  | newportharbor => mkSeasonConfig 15 0.7 true 0.2 1.3 0.15 1.2 0.7 0.7
  end.

Definition season_eqb (a b : Season) : bool :=
  match a, b with
  | sanfrancisco, sanfrancisco | longbeach, longbeach
  | newportharbor, newportharbor => true
  | _, _ => false
  end.

Definition seasonOrder : list Season := [sanfrancisco; longbeach; newportharbor].

(** [Array.prototype.indexOf]: [-1] when absent. *)
Fixpoint indexOf (l : list Season) (s : Season) : Z :=
  match l with
  | [] => (-1)%Z
  | h :: t =>
      if season_eqb h s then 0%Z
      else let i := indexOf t s in if Z.eqb i (-1) then (-1)%Z else (i + 1)%Z
  end.

(** [cycleToNextSeason()]: the new [currentSeason], [None] standing for
    [seasonOrder[nextIndex]] being [undefined]. *)
Definition cycleToNextSeason (currentSeason : Season) : option Season :=
  let currentIndex := indexOf seasonOrder currentSeason in
  let nextIndex := Z.rem (currentIndex + 1) (Z.of_nat (List.length seasonOrder)) in
  nth_error seasonOrder (Z.to_nat nextIndex).

End SeasonStore.

(* ------------------------------------------------------------------ *)
(** ** More of [SimpleGameCanvas.tsx] *)

Module CanvasExt.
Import RaceStore Canvas Wind SeasonStore.
Local Open Scope R_scope.

(** *** [formatTime(ms)] (lines 11-18), for an integer [ms] (a difference
    of [Date.now()] values) *)

(** [n.toString()] for an integer [n]. *)
Definition js_to_string (n : Z) : string := NilZero.string_of_int (Z.to_int n).

(** [s.padStart(2, "0")] *)
Definition pad_start2 (s : string) : string :=
  match String.length s with
  | 0%nat => "00"%string
  | 1%nat => ("0" ++ s)%string
  | _ => s
  end.

Definition formatTime (ms : Z) : string :=
  let totalSeconds := (ms / 1000)%Z in
  let minutes := (totalSeconds / 60)%Z in
  let seconds := Z.rem totalSeconds 60 in
  let milliseconds := (Z.rem ms 1000 / 10)%Z in
  (pad_start2 (js_to_string minutes) ++ ":" ++ pad_start2 (js_to_string seconds)
   ++ "." ++ pad_start2 (js_to_string milliseconds))%string.

(** *** Steering of boat 1 (lines 780-797), [rotationSpeed = 60 * deltaTime] *)

(** [ArrowLeft]: [newRotation = prev.rotation - rotationSpeed;
    if (newRotation < 0) newRotation += 360;] *)
Definition steer_left (rotation rotationSpeed : R) : R :=
  let newRotation := rotation - rotationSpeed in
  if Rlt_dec newRotation 0 then newRotation + 360 else newRotation.

(** [ArrowRight]: [(prev.rotation + rotationSpeed) % 360] *)
Definition steer_right (rotation rotationSpeed : R) : R :=
  js_rem (rotation + rotationSpeed) 360.

(** The luffing branch (Shift held): [Math.max(0, prev.speed - acceleration * 3)]
    with [acceleration = 50 * deltaTime]. *)
Definition luff_speed (prevSpeed deltaTime : R) : R :=
  Rmax 0 (prevSpeed - (50 * deltaTime) * 3).

(** *** Wind puffs (lines 441-515) *)

(** A new puff from the draws [r2] .. [r7] of [Math.random()] (the first
    draw, [r1], decides whether a puff is made at all): the puff, its
    [strength] and its [curveFactor]. The last two only shape and colour
    the drawing. [r5] is drawn only when [seasonConfig.gusts] holds. *)
Definition generate_puff (cfg : SeasonConfig) (boundaryMargin canvasWidth : R)
    (r2 r3 r4 r5 r6 r7 : R) : Puff * R * R :=
  let basePuffWidth := (r2 * 100 + 50) * 1.8 in
  let puffWidth := basePuffWidth * puffSize cfg in
  let heightRatio := 0.5 + r3 * 0.4 in
  let puffHeight := puffWidth * heightRatio in
  let minX := boundaryMargin + puffWidth / 2 in
  let maxX := canvasWidth - boundaryMargin - puffWidth / 2 in
  let puffX := r4 * (maxX - minX) + minX in
  let isGust := gusts cfg && Rltb r5 (gustProbability cfg) in
  let windStrength0 := 0.3 + r6 * 0.7 * windVariability cfg in
  let windStrength :=
    if isGust then Rmin 1 (windStrength0 * gustStrength cfg) else windStrength0 in
  let speedBoost := 0.2 + windStrength * 0.2 in
  let curveFactor := 0.7 + r7 * 0.6 in
  (mkPuff puffX (- puffHeight) puffWidth puffHeight speedBoost (puffOpacity cfg),
   windStrength, curveFactor).

(** The inputs of one frame of the puff code. *)
Record PuffFrame := mkPuffFrame {
  pf_season : Season;
  pf_racing : bool;
  pf_paused : bool;
  pf_margin : R;
  pf_width : R;
  pf_height : R;
  pf_dt : R;
  pf_r1 : R; pf_r2 : R; pf_r3 : R; pf_r4 : R; pf_r5 : R; pf_r6 : R; pf_r7 : R
}.

(** [setWindPuffs((prev) => [...prev, newPuff])] when
    [phase === "racing" && !isPaused && Math.random() < 0.016 * puffFrequency / 0.1]. *)
Definition spawn_puffs (f : PuffFrame) (ps : list Puff) : list Puff :=
  let cfg := seasonConfig (pf_season f) in
  if pf_racing f && negb (pf_paused f)
     && Rltb (pf_r1 f) (0.016 * puffFrequency cfg / 0.1)
  then ps ++ [fst (fst (generate_puff cfg (pf_margin f) (pf_width f)
                          (pf_r2 f) (pf_r3 f) (pf_r4 f) (pf_r5 f) (pf_r6 f) (pf_r7 f)))]
  else ps.

(** The drift: every puff moves down by [34.5 * deltaTime] and is dropped
    once [y >= canvas.height + height]. *)
Definition drift_puffs (f : PuffFrame) (ps : list Puff) : list Puff :=
  if pf_racing f && negb (pf_paused f) then
    filter (fun p => Rltb (puff_y p) (pf_height f + puff_height p))
      (map (fun p => mkPuff (puff_x p) (puff_y p + 34.5 * pf_dt f) (puff_width p)
                       (puff_height p) (speedBoost p) (opacity p)) ps)
  else ps.

(** Both functional updates of one frame, in program order. *)
Definition puff_frame (f : PuffFrame) (ps : list Puff) : list Puff :=
  drift_puffs f (spawn_puffs f ps).

(** The [windPuffs] state after a sequence of frames. *)
Fixpoint puff_run (ps : list Puff) (frames : list PuffFrame) : list Puff :=
  match frames with
  | [] => ps
  | f :: rest => puff_run (puff_frame f ps) rest
  end.

(** *** Wind trend (lines 719-772) *)

Definition updateFrequency (s : Season) : R :=
  match s with
  | sanfrancisco => 0.07
  | longbeach => 0.07
  | newportharbor => 0.15
  end.

(** The [setWindDirection] updater: the new direction and the new
    [windTrendRef.current]. *)
Definition wind_trend_step (cfg : SeasonConfig) (prevDirection trend : R) : R * R :=
  let newDirection := prevDirection + trend * 0.5 * windShiftSpeed cfg in
  if Rle_dec (windShiftRange cfg) newDirection then (windShiftRange cfg, -1)
  else if Rle_dec newDirection (- windShiftRange cfg) then (- windShiftRange cfg, 1)
  else (newDirection, trend).

(** The inputs of one frame of the wind-trend code. *)
Record TrendFrame := mkTrendFrame {
  tf_season : Season;
  tf_racing : bool;
  tf_paused : bool;
  tf_dt : R;
  tf_r : R
}.

Definition wind_frame (f : TrendFrame) (st : R * R) : R * R :=
  let cfg := seasonConfig (tf_season f) in
  if tf_racing f && negb (tf_paused f)
     && Rltb (tf_r f) (updateFrequency (tf_season f) * tf_dt f * windVariability cfg)
  then wind_trend_step cfg (fst st) (snd st)
  else st.

(** [(windDirection, windTrendRef.current)] after a sequence of frames,
    from [useState(0)] and [useRef(1)]. *)
Fixpoint wind_run (st : R * R) (frames : list TrendFrame) : R * R :=
  match frames with
  | [] => st
  | f :: rest => wind_run (wind_frame f st) rest
  end.

(** *** The race-start effect (lines 268-300), run when [phase] or
    [boatCount] changes: when some active boat is [Not Started], one
    [useRace.setState(stageUpdates)] sets every active boat to [Start Leg]. *)
Definition race_start_effect (boatCount : nat) (st : RaceState) : RaceState :=
  if is_racing (phase st) then
    let needsInit :=
      stage_eqb (boat1Stage st) NotStarted
      || ((2 <=? boatCount)%nat && stage_eqb (boat2Stage st) NotStarted)
      || ((3 <=? boatCount)%nat && stage_eqb (boat3Stage st) NotStarted)
      || ((4 <=? boatCount)%nat && stage_eqb (boat4Stage st) NotStarted) in
    if needsInit then
      let '(mkState ph bs rs s1 s2 s3 s4) := st in
      mkState ph bs rs StartLeg
        (if (2 <=? boatCount)%nat then StartLeg else s2)
        (if (3 <=? boatCount)%nat then StartLeg else s3)
        (if (4 <=? boatCount)%nat then StartLeg else s4)
    else st
  else st.

End CanvasExt.

(* ------------------------------------------------------------------ *)
(** ** The collision pass of one tick (lines 1404-2095) *)

Module CollisionTick.
Import Canvas.
Local Open Scope R_scope.

(** A course mark as the checks read it ([topMarkRef], [bottomMarkRef],
    [leftBuoyRef], [rightBuoyRef]). *)
Record Mark := mkMark {
  m_x : R;
  m_y : R;
  m_radius : R
}.

(** What the pass reads of boat [N]: its clamped candidate position
    ([newBoatNX], [newBoatNY]), the speed of the [boatNState] snapshot the
    frame was drawn with, and the speed its queued [setBoatNState]
    updates have produced ([prev.speed] in the final functional update). *)
Record BoatTick := mkBoatTick {
  cand_x : R;
  cand_y : R;
  snap_speed : R;
  queued_speed : R
}.

(** [newBoatNXWithMarks], [newBoatNYWithMarks], [boatNSpeedAdjusted] and
    [boatNNeedsAdjustment]. *)
Record Adj := mkAdj {
  a_x : R;
  a_y : R;
  a_speed : R;
  needs : bool
}.

(** The four sets of variables, indexed by boat number. *)
Definition adj_init (bt : nat -> BoatTick) : nat -> Adj :=
  fun k => mkAdj (cand_x (bt k)) (cand_y (bt k)) (snap_speed (bt k)) false.

Definition adj_set (a : nat -> Adj) (k : nat) (v : Adj) : nat -> Adj :=
  fun k' => if Nat.eqb k' k then v else a k'.

(** The [activeBoats] entry of boat [k]. *)
Definition collision_info (bt : nat -> BoatTick) (k : nat) : CollisionInfo :=
  mkCollision k (cand_x (bt k)) (cand_y (bt k)) (snap_speed (bt k)).

Definition active_count (boatCount : nat) : nat :=
  if (4 <=? boatCount)%nat then 4 else if (3 <=? boatCount)%nat then 3 else 2.

(** The pairs [(i, j)], [i < j], in the order of the two nested loops. *)
Definition pairs (n : nat) : list (nat * nat) :=
  flat_map (fun i => map (fun j => (i, j)) (seq (S i) (n - i))) (seq 1 n).

(** One pass of the inner loop: on overlap, both boats' variables are
    overwritten (by id) from [resolve_pair]. *)
Definition pair_step (boatRadius : R) (bt : nat -> BoatTick) (a : nat -> Adj)
    (ij : nat * nat) : nat -> Adj :=
  match resolve_pair boatRadius (collision_info bt (fst ij)) (collision_info bt (snd ij)) with
  | Some (n1, n2) =>
      adj_set (adj_set a (c_id n1) (mkAdj (c_x n1) (c_y n1) (c_speed n1) true))
        (c_id n2) (mkAdj (c_x n2) (c_y n2) (c_speed n2) true)
  | None => a
  end.

(** [if (boatCount >= 2) { ... for (i ...) for (j ...) ... }] *)
Definition pair_loop (boatRadius : R) (bt : nat -> BoatTick) (boatCount : nat)
    (a : nat -> Adj) : nat -> Adj :=
  if (2 <=? boatCount)%nat
  then fold_left (pair_step boatRadius bt) (pairs (active_count boatCount)) a
  else a.

(** One mark check of boat [k]:
    [if (distanceToMarkN < boatRadius + mark.radius) { ... }]. *)
Definition mark_step (boatRadius : R) (bt : nat -> BoatTick) (k : nat)
    (a : nat -> Adj) (m : Mark) : nat -> Adj :=
  let c := bt k in
  let d := dist (cand_x c) (cand_y c) (m_x m) (m_y m) in
  if Rlt_dec d (boatRadius + m_radius m) then
    let collisionAngle := atan2 (cand_y c - m_y m) (cand_x c - m_x m) in
    let pushDistance := Rmax ((boatRadius + m_radius m - d) * 0.75) (boatRadius * 0.25) in
    adj_set a k (mkAdj (cand_x c + cos collisionAngle * pushDistance)
                       (cand_y c + sin collisionAngle * pushDistance)
                       (snap_speed c * 0.95) true)
  else a.

(** Which boats have their marks checked: boat 1 always, boat 2 only
    under [if (boatCount === 2)], boats 3 and 4 under [boatCount >= 3]
    and [boatCount >= 4]. *)
Definition marks_gate (boatCount k : nat) : bool :=
  match k with
  | 1 => true
  | 2 => Nat.eqb boatCount 2
  | 3 => (3 <=? boatCount)%nat
  | _ => (4 <=? boatCount)%nat
  end.

Definition mark_boat (boatRadius : R) (bt : nat -> BoatTick) (marks : list Mark)
    (boatCount k : nat) (a : nat -> Adj) : nat -> Adj :=
  if marks_gate boatCount k then fold_left (mark_step boatRadius bt k) marks a else a.

(** The mark checks, boat by boat, each boat against [marks] (top mark,
    bottom mark, left and right buoys, in that order). *)
Definition mark_loop (boatRadius : R) (bt : nat -> BoatTick) (marks : list Mark)
    (boatCount : nat) (a : nat -> Adj) : nat -> Adj :=
  fold_left (fun a k => mark_boat boatRadius bt marks boatCount k a) [1; 2; 3; 4]%nat a.

(** Boat [k]'s final [setBoatNState] update ([None] when it is not made):
    [x: boatNNeedsAdjustment ? newBoatNXWithMarks : newBoatNX], ...,
    [speed: boatNNeedsAdjustment ? boatNSpeedAdjusted : prev.speed]. *)
Definition collision_tick (boatRadius : R) (bt : nat -> BoatTick) (marks : list Mark)
    (boatCount k : nat) : option (R * R * R) :=
  if Nat.eqb k 1 || (k <=? boatCount)%nat then
    let a := mark_loop boatRadius bt marks boatCount
               (pair_loop boatRadius bt boatCount (adj_init bt)) k in
    Some (if needs a then (a_x a, a_y a, a_speed a)
          else (cand_x (bt k), cand_y (bt k), queued_speed (bt k)))
  else None.

End CollisionTick.

(* ------------------------------------------------------------------ *)
(** ** The rest of the wind store ([useWind.tsx]) *)

Module WindExt.
Import Wind.
Local Open Scope R_scope.

Inductive PuffFrequency := pf_low | pf_medium | pf_high.
Inductive PuffDistribution := random_dist | biased_dist.

(** All numeric fields of [LocationWindSettings]; [description] is only
    logged. *)
Record FullSettings := mkFullSettings {
  fs_windDirectionRange : R;
  fs_windChangeSpeed : ChangeSpeed;
  fs_puffFrequency : PuffFrequency;
  fs_puffDistribution : PuffDistribution;
  currentMin : R;
  currentMax : R;
  baseWindStrength : R;
  windMaxStrength : R
}.

Definition fullSettings (s : Season) : FullSettings :=
  match s with
  | sanfrancisco => mkFullSettings 10 medium pf_medium random_dist 2.0 5.0 16 28
  | longbeach => mkFullSettings 10 medium pf_medium biased_dist 0.0 1.5 5 28
  | newportharbor => mkFullSettings 20 rapid pf_high random_dist 0.0 0.0 5 12
  end.

(** [export interface WindCell] *)
Record WindCell := mkCell {
  cell_id : nat;
  cell_x : R;
  cell_y : R;
  radius : R;
  strength : R
}.

(** The [Math.random()] draws of one cell: [dx0] for the first [x], [dx1]
    for the second one of a biased venue, then [y], radius and strength;
    [favorLeftSide] is [Math.floor(now.getTime() / 60000) % 2 === 0],
    evaluated for each cell of a biased venue. *)
Record CellDraws := mkCellDraws {
  dx0 : R; favorLeftSide : bool; dx1 : R; dy : R; dr : R; ds : R
}.

(** [Math.floor] *)
Definition floor (x : R) : Z := Int_part x.

Definition adjusted_count (count : nat) (fs : FullSettings) : nat :=
  match fs_puffFrequency fs with
  | pf_low => Z.to_nat (floor (INR count * 0.6))
  | pf_high => Z.to_nat (floor (INR count * 1.5))
  | pf_medium => count
  end.

(** One cell of [createWindCells]. *)
Definition make_cell (fs : FullSettings) (i : nat)
    (d : CellDraws) : WindCell :=
  let canvasWidth := 1000 in
  let canvasHeight := 800 in
  let x := match fs_puffDistribution fs with
           | biased_dist =>
               if favorLeftSide d then dx1 d * (canvasWidth * 0.7)
               else canvasWidth * 0.3 + dx1 d * (canvasWidth * 0.7)
           | random_dist => dx0 d * canvasWidth
           end in
  mkCell i x (dy d * canvasHeight) (50 + dr d * 100) (IZR (floor (ds d * 5)) - 2).

(** [createWindCells(count, locationSetting)], cell [i] from the draws
    [draws i]. *)
Definition createWindCells (count : nat) (fs : FullSettings)
    (draws : nat -> CellDraws) : list WindCell :=
  map (fun i => make_cell fs i (draws i)) (seq 0 (adjusted_count count fs)).

(** The fields of the wind store. *)
Record WindStore := mkWindStore {
  baseStrength : R;
  direction : R;
  cells : list WindCell;
  currentDirection : R;
  currentStrength : R;
  tick : Z
}.

(** [initializeWind()] at venue [s], with the draws in call order:
    [r1] current direction, [r2] current strength (drawn only when
    [currentMin !== currentMax]), [r3] wind strength, [r4] side, [r5]
    direction. *)
Definition initializeWind (s : Season) (r1 r2 r3 r4 r5 : R)
    (draws : nat -> CellDraws) : WindStore :=
  let settings := fullSettings s in
  let randomCurrentDirection := r1 * 360 in
  let cs := if Req_EM_T (currentMin settings) (currentMax settings)
            then currentMin settings
            else currentMin settings + r2 * (currentMax settings - currentMin settings) in
  let randomWindStrength :=
    if Req_EM_T (windMaxStrength settings) 0 then baseWindStrength settings
    else baseWindStrength settings
         + r3 * (windMaxStrength settings - baseWindStrength settings) in
  let initialWindDirection :=
    if Rlt_dec 0.5 r4 then r5 * fs_windDirectionRange settings
    else 360 - r5 * fs_windDirectionRange settings in
  mkWindStore randomWindStrength initialWindDirection
    (createWindCells 10 settings draws)
    randomCurrentDirection cs 0.

(** The draws of one cell in [updateWindCells]: two drifts, the change
    test and the sign (the last one drawn only when the test passes). *)
Record DriftDraws := mkDriftDraws {
  ddx : R; ddy : R; dp : R; dsgn : R
}.

Definition strength_change_prob (fs : FullSettings) : R :=
  match fs_puffFrequency fs with
  | pf_low => 0.05
  | pf_high => 0.15
  | pf_medium => 0.1
  end.

Definition drift_cell (fs : FullSettings) (c : WindCell) (d : DriftDraws) : WindCell :=
  let driftX := ddx d * 2 - 1 in
  let driftY := ddy d * 2 - 1 in
  let newStrength :=
    if Rlt_dec (dp d) (strength_change_prob fs)
    then Rmax (-2) (Rmin 2 (strength c + (if Rlt_dec 0.5 (dsgn d) then 1 else -1)))
    else strength c in
  mkCell (cell_id c) (cell_x c + driftX) (cell_y c + driftY) (radius c) newStrength.

(** [updateWindCells()], cell number [i] of the list drifting with
    [draws i]. *)
Definition updateWindCells (s : Season) (draws : nat -> DriftDraws) (st : WindStore)
    : WindStore :=
  let fs := fullSettings s in
  let newCells := map (fun ic => drift_cell fs (snd ic) (draws (fst ic)))
                    (combine (seq 0 (List.length (cells st))) (cells st)) in
  mkWindStore (baseStrength st) (direction st) newCells (currentDirection st)
    (currentStrength st) (tick st).

(** Successive [updateWindCells()] calls, one draw function per call. *)
Definition updateWindCells_run (s : Season) (calls : list (nat -> DriftDraws))
    (st : WindStore) : WindStore :=
  fold_left (fun st draws => updateWindCells s draws st) calls st.

(** The [for (const cell of cells)] loop of [getWindAt]. *)
Fixpoint strength_modifier (x y : R) (cs : list WindCell) (acc : R) : R :=
  match cs with
  | [] => acc
  | c :: rest =>
      let distance := sqrt ((x - cell_x c) ^ 2 + (y - cell_y c) ^ 2) in
      if Rlt_dec distance (radius c) then
        let weight := 1 - distance / radius c in
        strength_modifier x y rest (acc + strength c * weight)
      else strength_modifier x y rest acc
  end.

(** [getWindAt(x, y)]: the strength and direction. *)
Definition getWindAt (st : WindStore) (x y : R) : R * R :=
  let strengthModifier := strength_modifier x y (cells st) 0 in
  (Rmax 1 (Rmin 10 (baseStrength st + strengthModifier)), direction st).

End WindExt.

(* ------------------------------------------------------------------ *)
(** ** Facts about [finishRace] *)

Module RaceStoreFacts.
Import RaceStore.

(** Ordering of results by finish time. *)
Definition time_le (a b : RaceResult) : Prop := (finishTime a <= finishTime b)%Z.

(** A result list as [finishRace] leaves it: ranks [1..N] in list order,
    sorted by finish time, rank 1 held by a fastest result. *)
Definition ranked (rs : list RaceResult) : Prop :=
  map r_position rs = seq 1 (List.length rs)
  /\ Sorted time_le rs
  /\ (forall r, In r rs -> r_position r = 1%nat ->
        forall q, In q rs -> (finishTime r <= finishTime q)%Z).

(** The result [finishRace] appends for [boat]. *)
Definition new_result (boat : Boat) (boatId : string) (time : Z) : RaceResult :=
  mkResult (userId boat) (username boat) time 0 (boat_number boatId).

Definition duplicate (st : RaceState) (boat : Boat) (boatId : string) : bool :=
  existsb (fun r => Z.eqb (r_userId r) (userId boat)
                    && num_eqb (boatNumber r) (boat_number boatId)) (results st).

Definition completed (st : RaceState) (boatId : string) : bool :=
  match stage_of st boatId with
  | Some s => stage_eqb s FinishLeg || stage_eqb s Finished
  | None => false
  end.

Ltac destr_ids :=
  repeat match goal with
  | |- context [String.eqb ?b ?c] => destruct (String.eqb b c)
  end.

Lemma set_stage_results st b s : results (set_stage st b s) = results st.
Proof. destruct st; unfold set_stage; destr_ids; reflexivity. Qed.

Lemma set_stage_phase st b s : phase (set_stage st b s) = phase st.
Proof. destruct st; unfold set_stage; destr_ids; reflexivity. Qed.

Lemma set_stage_boats st b s : boats (set_stage st b s) = boats st.
Proof. destruct st; unfold set_stage; destr_ids; reflexivity. Qed.

Lemma stage_of_set_stage st b s :
  stage_of st b <> None -> stage_of (set_stage st b s) b = Some s.
Proof.
  destruct st; unfold stage_of, set_stage; simpl.
  destr_ids; simpl; congruence.
Qed.

Lemma set_results_results st rs : results (set_results st rs) = rs.
Proof. destruct st; reflexivity. Qed.

Lemma set_results_phase st rs : phase (set_results st rs) = phase st.
Proof. destruct st; reflexivity. Qed.

Lemma set_results_boats st rs : boats (set_results st rs) = boats st.
Proof. destruct st; reflexivity. Qed.

Lemma set_phase_results st p : results (set_phase st p) = results st.
Proof. destruct st; reflexivity. Qed.

Lemma set_phase_phase st p : phase (set_phase st p) = p.
Proof. destruct st; reflexivity. Qed.

Lemma stage_eqb_true a b : stage_eqb a b = true <-> a = b.
Proof.
  unfold stage_eqb; split.
  - destruct a, b; simpl; congruence.
  - intros ->; apply Nat.eqb_refl.
Qed.

(** The three outcomes of [finishRace]. *)
Lemma finishRace_cases st b t :
  finishRace st b t = st
  \/ (completed st b = false /\ finishRace st b t = set_stage st b Finished)
  \/ (exists boat,
        find (fun x => String.eqb (id x) b) (boats st) = Some boat
        /\ duplicate st boat b = false
        /\ completed st b = true
        /\ let st1 := set_stage (set_results st
                        (assign_positions 1 (sort_by_time
                           (results st ++ [new_result boat b t])))) b Finished in
           finishRace st b t =
             if (List.length (boats st) <=? List.length (results st) + 1)%nat
             then set_phase st1 PhaseFinished else st1).
Proof.
  unfold finishRace.
  destruct (find _ (boats st)) as [boat|] eqn:Hf; [|left; reflexivity].
  fold (duplicate st boat b).
  destruct (duplicate st boat b) eqn:Hd; [left; reflexivity|].
  fold (completed st b).
  destruct (completed st b) eqn:Hc; simpl.
  - right; right. exists boat. repeat split; auto.
  - right; left. split; reflexivity.
Qed.

(** *** Sorting and ranking *)

Lemma insert_length r l : List.length (insert_by_time r l) = S (List.length l).
Proof.
  induction l as [|h t IH]; simpl; [reflexivity|].
  destruct (Z.leb _ _); simpl; [reflexivity|]. rewrite IH; reflexivity.
Qed.

Lemma sort_length l : List.length (sort_by_time l) = List.length l.
Proof.
  induction l as [|h t IH]; simpl; [reflexivity|].
  rewrite insert_length, IH; reflexivity.
Qed.

Lemma assign_length n l : List.length (assign_positions n l) = List.length l.
Proof.
  revert n; induction l as [|h t IH]; intros n; simpl; [reflexivity|].
  rewrite IH; reflexivity.
Qed.

Lemma assign_positions_map n l :
  map r_position (assign_positions n l) = seq n (List.length l).
Proof.
  revert n; induction l as [|h t IH]; intros n; simpl; [reflexivity|].
  rewrite IH; reflexivity.
Qed.

Lemma assign_positions_times n l :
  map finishTime (assign_positions n l) = map finishTime l.
Proof.
  revert n; induction l as [|h t IH]; intros n; simpl; [reflexivity|].
  rewrite IH; reflexivity.
Qed.

Lemma insert_sorted r l : Sorted time_le l -> Sorted time_le (insert_by_time r l).
Proof.
  induction l as [|h t IH]; simpl; intros H.
  - repeat constructor.
  - destruct (Z.leb_spec (finishTime r) (finishTime h)) as [Hle|Hgt].
    + constructor; [exact H|constructor; exact Hle].
    + apply Sorted_inv in H as [Ht Hh].
      constructor; [apply IH; exact Ht|].
      destruct t as [|h' t']; simpl.
      * constructor; unfold time_le; lia.
      * destruct (Z.leb _ _); constructor; unfold time_le; [lia|].
        inversion Hh; assumption.
Qed.

Lemma sort_sorted l : Sorted time_le (sort_by_time l).
Proof.
  induction l as [|h t IH]; simpl; [constructor|].
  apply insert_sorted; exact IH.
Qed.

Lemma assign_sorted n l : Sorted time_le l -> Sorted time_le (assign_positions n l).
Proof.
  revert n; induction l as [|h t IH]; intros n H; simpl; [constructor|].
  apply Sorted_inv in H as [Ht Hh].
  constructor; [apply IH; exact Ht|].
  destruct t as [|h' t']; simpl; constructor.
  inversion Hh; assumption.
Qed.

Lemma insert_perm r l : Permutation (insert_by_time r l) (r :: l).
Proof.
  induction l as [|h t IH]; simpl; [reflexivity|].
  destruct (Z.leb _ _); [reflexivity|].
  eapply perm_trans; [apply perm_skip; exact IH|apply perm_swap].
Qed.

Lemma sort_perm l : Permutation (sort_by_time l) l.
Proof.
  induction l as [|h t IH]; simpl; [reflexivity|].
  eapply perm_trans; [apply insert_perm|apply perm_skip; exact IH].
Qed.

Lemma time_le_trans : Relations_1.Transitive time_le.
Proof. intros a b c; unfold time_le; lia. Qed.

(** Positions [1..N] and sortedness give the third part of [ranked]. *)
Lemma ranked_of_sorted rs :
  map r_position rs = seq 1 (List.length rs) -> Sorted time_le rs -> ranked rs.
Proof.
  intros Hp Hs. split; [exact Hp|]. split; [exact Hs|].
  intros r Hr H1 q Hq.
  destruct rs as [|h t]; [destruct Hr|].
  simpl in Hp. injection Hp as Hh Ht.
  assert (r = h) as ->.
  { destruct Hr as [->|Hr]; [reflexivity|].
    exfalso. apply (in_map r_position) in Hr. rewrite Ht in Hr.
    apply in_seq in Hr. lia. }
  destruct Hq as [->|Hq]; [unfold time_le; lia|].
  apply Sorted_StronglySorted in Hs; [|exact time_le_trans].
  inversion Hs as [|a l _ Hall]; subst.
  rewrite Forall_forall in Hall. exact (Hall q Hq).
Qed.

Lemma ranked_assign l : ranked (assign_positions 1 (sort_by_time l)).
Proof.
  apply ranked_of_sorted.
  - rewrite assign_positions_map, assign_length; reflexivity.
  - apply assign_sorted, sort_sorted.
Qed.

(** A [finishRace] call keeps a ranked list ranked. *)
Lemma finishRace_ranked st b t : ranked (results st) -> ranked (results (finishRace st b t)).
Proof.
  intros H.
  destruct (finishRace_cases st b t) as [E|[[_ E]|[boat [_ [_ [_ E]]]]]];
    rewrite E.
  - exact H.
  - rewrite set_stage_results; exact H.
  - destruct (Nat.leb _ _);
      rewrite ?set_phase_results, set_stage_results, set_results_results;
      apply ranked_assign.
Qed.

Lemma finishRace_phase_unchanged st b t :
  List.length (results (finishRace st b t)) = List.length (results st) ->
  phase (finishRace st b t) = phase st.
Proof.
  destruct (finishRace_cases st b t) as [E|[[_ E]|[boat [_ [_ [_ E]]]]]];
    rewrite E.
  - reflexivity.
  - intros _; apply set_stage_phase.
  - destruct (Nat.leb _ _);
      rewrite ?set_phase_results, set_stage_results, set_results_results,
        assign_length, sort_length, length_app; simpl; lia.
Qed.

End RaceStoreFacts.

Module RaceStoreClaims.
Import RaceStore RaceStoreFacts.

(** A store in which boat 1 is on its upwind leg although a result for it is
    already recorded. *)
Definition st_recorded_upwind : RaceState :=
  mkState Racing two_boats [mkResult 1 "Player 1" 90 1 (Some 1%Z)]
    UpwindLeg StartLeg NotStarted NotStarted.

(** Claim C1, counterexample: [finishRace("boat-1", 100)] on a known boat
    whose stage is [Upwind Leg] leaves the stage at [Upwind Leg]: the
    duplicate-result guard returns before the stage is set. *)
Lemma finishRace_C1_counterexample :
  find (fun b => String.eqb (id b) "boat-1") (boats st_recorded_upwind) <> None
  /\ stage_of st_recorded_upwind "boat-1" = Some UpwindLeg
  /\ stage_of (finishRace st_recorded_upwind "boat-1" 100) "boat-1" = Some UpwindLeg
  /\ stage_of (finishRace st_recorded_upwind "boat-1" 100) "boat-1" <> Some Finished.
Proof. vm_compute. repeat split; congruence. Qed.

(** Claim C1 (amended): a [finishRace] call on a known boat that holds no
    result yet and whose stage is neither [Finish Leg] nor [Finished] sets
    the stage to [Finished] and leaves the results (and the phase)
    unchanged; whenever a call changes the results, the boat's stage was
    [Finish Leg] or [Finished] at the time of the call; and a call for a
    known boat that already holds a result (same user id and boat number)
    returns early and changes nothing, its stage included. *)
Theorem finishRace_incomplete_stage_only :
  forall st b t,
  (forall boat s,
     find (fun x => String.eqb (id x) b) (boats st) = Some boat ->
     stage_of st b = Some s -> s <> FinishLeg -> s <> Finished ->
     duplicate st boat b = false ->
     stage_of (finishRace st b t) b = Some Finished
     /\ results (finishRace st b t) = results st
     /\ phase (finishRace st b t) = phase st)
  /\ (results (finishRace st b t) <> results st ->
      exists s, stage_of st b = Some s /\ (s = FinishLeg \/ s = Finished))
  /\ (forall boat,
       find (fun x => String.eqb (id x) b) (boats st) = Some boat ->
       duplicate st boat b = true ->
       finishRace st b t = st).
Proof.
  intros st b t. split; [|split].
  - intros boat s Hf Hs Hn1 Hn2 Hd.
    assert (Hc : completed st b = false).
    { unfold completed; rewrite Hs.
      destruct (stage_eqb s FinishLeg) eqn:E1;
        [apply stage_eqb_true in E1; contradiction|].
      destruct (stage_eqb s Finished) eqn:E2;
        [apply stage_eqb_true in E2; contradiction|reflexivity]. }
    unfold finishRace. rewrite Hf. fold (duplicate st boat b). rewrite Hd.
    fold (completed st b). rewrite Hc. simpl.
    split; [apply stage_of_set_stage; congruence|].
    split; [apply set_stage_results|apply set_stage_phase].
  - destruct (finishRace_cases st b t) as [E|[[_ E]|[boat [_ [_ [Hc _]]]]]].
    + rewrite E; intros H; contradiction.
    + rewrite E, set_stage_results; intros H; contradiction.
    + intros _. unfold completed in Hc.
      destruct (stage_of st b) as [s|]; [|discriminate].
      exists s; split; [reflexivity|].
      apply orb_true_iff in Hc as [H|H]; apply stage_eqb_true in H; auto.
  - intros boat Hf Hd. unfold finishRace. rewrite Hf.
    fold (duplicate st boat b). rewrite Hd. reflexivity.
Qed.

Lemma finishRace_incomplete_stage_only_witness :
  (stage_of (finishRace st_recorded_upwind "boat-2" 100) "boat-2" = Some Finished
   /\ results (finishRace st_recorded_upwind "boat-2" 100) = results st_recorded_upwind
   /\ phase (finishRace st_recorded_upwind "boat-2" 100) = phase st_recorded_upwind)
  /\ finishRace st_recorded_upwind "boat-1" 100 = st_recorded_upwind.
Proof.
  split.
  - destruct (finishRace_incomplete_stage_only st_recorded_upwind "boat-2" 100)
      as [H _].
    apply (H (createInitialBoat 1 "Boat 2" 1 false) StartLeg).
    + reflexivity.
    + reflexivity.
    + discriminate.
    + discriminate.
    + vm_compute; reflexivity.
  - destruct (finishRace_incomplete_stage_only st_recorded_upwind "boat-1" 100)
      as [_ [_ H]].
    apply (H (createInitialBoat 1 "Player 1" 0 true)).
    + reflexivity.
    + vm_compute; reflexivity.
Defined.

(** Claim C6: starting from an empty result list, after any sequence of
    [finishRace] calls the results carry the ranks [1..N] in list order
    (no duplicates, no gaps), are sorted by finish time, and rank 1 holds
    the smallest finish time; every call that records a result rebuilds the
    list as the stable sort by finish time of the old results plus the new
    one, renumbered from 1. *)
Theorem finishRace_ranks :
  forall st calls, results st = [] ->
  ranked (results (finish_all st calls))
  /\ (forall b t boat,
        find (fun x => String.eqb (id x) b) (boats st) = Some boat ->
        duplicate st boat b = false -> completed st b = true ->
        results (finishRace st b t)
          = assign_positions 1 (sort_by_time (results st ++ [new_result boat b t]))
        /\ Permutation (map finishTime (results (finishRace st b t)))
                       (map finishTime (results st ++ [new_result boat b t]))).
Proof.
  intros st calls H0. split.
  - assert (Hr : ranked (results st)).
    { rewrite H0. split; [reflexivity|]. split; [constructor|].
      intros r Hr; destruct Hr. }
    clear H0. revert st Hr.
    induction calls as [|[b t] rest IH]; intros st Hr; simpl; [exact Hr|].
    apply IH, finishRace_ranked, Hr.
  - intros b t boat Hf Hd Hc.
    assert (E : results (finishRace st b t)
                = assign_positions 1 (sort_by_time (results st ++ [new_result boat b t]))).
    { unfold finishRace. rewrite Hf. fold (duplicate st boat b). rewrite Hd.
      fold (completed st b). rewrite Hc. simpl.
      destruct (Nat.leb _ _);
        rewrite ?set_phase_results, set_stage_results, set_results_results;
        reflexivity. }
    split; [exact E|]. rewrite E, assign_positions_times.
    apply Permutation_map, sort_perm.
Qed.

Lemma finishRace_ranks_witness :
  ranked (results (finish_all
            (mkState Racing two_boats [] FinishLeg FinishLeg NotStarted NotStarted)
            [("boat-2"%string, 120%Z); ("boat-1"%string, 80%Z)])).
Proof.
  exact (proj1 (finishRace_ranks
           (mkState Racing two_boats [] FinishLeg FinishLeg NotStarted NotStarted)
           [("boat-2"%string, 120%Z); ("boat-1"%string, 80%Z)] eq_refl)).
Defined.

(** Claim C7: a [finishRace] call sets the phase to [finished] exactly when
    it records a result and the number of results then reaches the number of
    boats; a call that records nothing leaves the phase as it was; so with
    two boats, the first recorded result leaves a racing race racing. *)
Theorem finishRace_phase :
  forall st b t,
  (List.length (results (finishRace st b t)) = S (List.length (results st)) ->
   phase (finishRace st b t) =
     if (List.length (boats st) <=? List.length (results (finishRace st b t)))%nat
     then PhaseFinished else phase st)
  /\ (List.length (results (finishRace st b t)) = List.length (results st) ->
      phase (finishRace st b t) = phase st)
  /\ (List.length (boats st) = 2%nat -> results st = [] -> phase st = Racing ->
      phase (finishRace st b t) = Racing).
Proof.
  intros st b t.
  assert (Hrec : forall boat,
    let st1 := set_stage (set_results st
                 (assign_positions 1 (sort_by_time
                    (results st ++ [new_result boat b t])))) b Finished in
    List.length (results st1) = S (List.length (results st))
    /\ phase st1 = phase st).
  { intros boat st1. subst st1.
    rewrite set_stage_results, set_results_results, assign_length, sort_length,
      length_app, set_stage_phase, set_results_phase; simpl.
    split; [lia|reflexivity]. }
  split; [|split; [apply finishRace_phase_unchanged|]].
  - destruct (finishRace_cases st b t) as [E|[[_ E]|[boat [_ [_ [_ E]]]]]];
      rewrite E.
    + lia.
    + rewrite set_stage_results; lia.
    + destruct (Hrec boat) as [Hl Hp].
      destruct (Nat.leb (List.length (boats st)) (List.length (results st) + 1)) eqn:Hb.
      * rewrite set_phase_results, Hl, set_phase_phase. intros _.
        replace (S (List.length (results st))) with (List.length (results st) + 1)%nat
          by lia.
        rewrite Hb; reflexivity.
      * rewrite Hl, Hp. intros _.
        replace (S (List.length (results st))) with (List.length (results st) + 1)%nat
          by lia.
        rewrite Hb; reflexivity.
  - intros H2 H0 Hp.
    destruct (finishRace_cases st b t) as [E|[[_ E]|[boat [_ [_ [_ E]]]]]];
      rewrite E.
    + exact Hp.
    + rewrite set_stage_phase; exact Hp.
    + destruct (Nat.leb (List.length (boats st)) (List.length (results st) + 1)) eqn:Hb.
      * rewrite H2, H0 in Hb; discriminate.
      * destruct (Hrec boat) as [_ ->]; exact Hp.
Qed.

Lemma finishRace_phase_witness :
  phase (finishRace (mkState Racing two_boats [] FinishLeg StartLeg NotStarted NotStarted)
           "boat-1" 100) = Racing.
Proof.
  exact (proj2 (proj2 (finishRace_phase
           (mkState Racing two_boats [] FinishLeg StartLeg NotStarted NotStarted)
           "boat-1" 100)) eq_refl eq_refl eq_refl).
Defined.

End RaceStoreClaims.

(* ------------------------------------------------------------------ *)
(** ** Stage progression *)

Module StageFacts.
Import RaceStore RaceStoreFacts Canvas.

(** Every boat's stage in [st'] is at least as far along as in [st]. *)
Definition stages_le (st st' : RaceState) : Prop :=
  forall k, (stage_index (boat_stage st k) <= stage_index (boat_stage st' k))%nat.

Lemma stages_le_refl st : stages_le st st.
Proof. intros k; lia. Qed.

Lemma stages_le_trans a b c : stages_le a b -> stages_le b c -> stages_le a c.
Proof. intros H1 H2 k; specialize (H1 k); specialize (H2 k); lia. Qed.

Lemma stage_index_le_6 s : (stage_index s <= 6)%nat.
Proof. destruct s; simpl; lia. Qed.

Lemma boat_stage_set_stage st b s k :
  boat_stage (set_stage st b s) k =
    if String.eqb b (boat_key k) then s else boat_stage st k.
Proof.
  destruct st as [ph bs rs s1 s2 s3 s4]; unfold set_stage.
  destruct (String.eqb_spec b "boat-1");
    [subst; destruct k as [|[|[|[|[|k]]]]]; reflexivity|].
  destruct (String.eqb_spec b "boat-2");
    [subst; destruct k as [|[|[|[|[|k]]]]]; reflexivity|].
  destruct (String.eqb_spec b "boat-3");
    [subst; destruct k as [|[|[|[|[|k]]]]]; reflexivity|].
  destruct (String.eqb_spec b "boat-4");
    [subst; destruct k as [|[|[|[|[|k]]]]]; reflexivity|].
  destruct k as [|[|[|[|[|k]]]]]; simpl;
    repeat match goal with
    | |- context [String.eqb ?x ?y] => destruct (String.eqb_spec x y); [congruence|]
    end; reflexivity.
Qed.

Lemma boat_key_stage st k k' :
  boat_key k = boat_key k' -> boat_stage st k = boat_stage st k'.
Proof.
  destruct k as [|[|[|[|[|k]]]]], k' as [|[|[|[|[|k']]]]]; simpl;
    try reflexivity; discriminate.
Qed.

Lemma set_stage_le st b s :
  (forall k, String.eqb b (boat_key k) = true ->
     (stage_index (boat_stage st k) <= stage_index s)%nat) ->
  stages_le st (set_stage st b s).
Proof.
  intros H k. rewrite boat_stage_set_stage.
  destruct (String.eqb b (boat_key k)) eqn:E; [apply H, E|lia].
Qed.

Lemma set_results_stages st rs : stages_le st (set_results st rs).
Proof. destruct st; intros k; destruct k as [|[|[|[|[|k]]]]]; simpl; lia. Qed.

Lemma set_phase_stages st p : stages_le st (set_phase st p).
Proof. destruct st; intros k; destruct k as [|[|[|[|[|k]]]]]; simpl; lia. Qed.

Lemma set_finished_le st b : stages_le st (set_stage st b Finished).
Proof. apply set_stage_le; intros k _; apply stage_index_le_6. Qed.

Lemma finishRace_stages st b t : stages_le st (finishRace st b t).
Proof.
  destruct (finishRace_cases st b t) as [E|[[_ E]|[boat [_ [_ [_ E]]]]]];
    rewrite E.
  - apply stages_le_refl.
  - apply set_finished_le.
  - assert (H : stages_le st (set_stage (set_results st
              (assign_positions 1 (sort_by_time (results st ++ [new_result boat b t]))))
              b Finished)).
    { eapply stages_le_trans; [apply set_results_stages|apply set_finished_le]. }
    destruct (Nat.leb _ _); [|exact H].
    eapply stages_le_trans; [exact H|apply set_phase_stages].
Qed.

(** Each per-tick check either keeps the stage or moves it one step on. *)
Lemma stage_tick_step c o s :
  stage_tick c o s = s \/ stage_index (stage_tick c o s) = S (stage_index s).
Proof.
  destruct s; simpl; auto;
    repeat match goal with
    | |- context [if ?b then _ else _] => destruct b
    end; simpl; auto.
Qed.

Lemma stage_tick_le c o s : (stage_index s <= stage_index (stage_tick c o s))%nat.
Proof. destruct (stage_tick_step c o s) as [->| ->]; lia. Qed.

Lemma force_start_stages bc st : stages_le st (force_start bc st).
Proof.
  destruct st as [ph bs rs s1 s2 s3 s4]; unfold force_start;
    cbn [boat1Stage boat2Stage boat3Stage boat4Stage].
  destruct (stage_eqb s1 NotStarted) eqn:E1, (2 <=? bc)%nat,
    (stage_eqb s2 NotStarted) eqn:E2, (3 <=? bc)%nat,
    (stage_eqb s3 NotStarted) eqn:E3, (4 <=? bc)%nat,
    (stage_eqb s4 NotStarted) eqn:E4; simpl;
    intros k; destruct k as [|[|[|[|[|k]]]]]; simpl;
    repeat match goal with
    | H : stage_eqb ?s NotStarted = true |- _ =>
        apply stage_eqb_true in H; subst s
    end; simpl; lia.
Qed.

Lemma stage_step_le st ev : stages_le st (stage_step st ev).
Proof.
  destruct ev as [bc|k0 c o|b t]; simpl.
  - destruct (is_racing (phase st)); [apply force_start_stages|apply stages_le_refl].
  - destruct (is_racing (phase st)); [|apply stages_le_refl].
    apply set_stage_le. intros k E.
    apply String.eqb_eq in E.
    rewrite (boat_key_stage st k k0) by (symmetry; exact E).
    apply stage_tick_le.
  - apply finishRace_stages.
Qed.

End StageFacts.

Module StageClaims.
Import RaceStore Canvas StageFacts.

(** Claim C2: over any sequence of per-tick force-starts, per-tick stage
    checks and [finishRace] calls, no boat's stage index (Not Started = 0
    ... Finished = 6) decreases; and each per-tick check either leaves the
    stage alone or moves it exactly one stage forward. *)
Theorem stage_index_monotone :
  forall st evs k,
  (stage_index (boat_stage st k) <= stage_index (boat_stage (stage_run st evs) k))%nat
  /\ (forall c o s, stage_tick c o s = s
                    \/ stage_index (stage_tick c o s) = S (stage_index s)).
Proof.
  intros st evs k. split; [|apply stage_tick_step].
  revert st; induction evs as [|ev rest IH]; intros st; simpl; [lia|].
  specialize (IH (stage_step st ev)).
  pose proof (stage_step_le st ev k). lia.
Qed.

End StageClaims.

(* ------------------------------------------------------------------ *)
(** ** Geometry facts *)

Module GeometryFacts.
Import Canvas.
Local Open Scope R_scope.

Lemma sqrt_scale x a : 0 <= a -> sqrt (x ^ 2 * a) = Rabs x * sqrt a.
Proof.
  intros Ha. rewrite sqrt_mult_alt by (apply pow2_ge_0).
  rewrite <- Rsqr_pow2, sqrt_Rsqr_abs; reflexivity.
Qed.

Lemma atan_polar x y : x <> 0 ->
  sqrt (x ^ 2 + y ^ 2) = Rabs x * sqrt (1 + (y / x)²)
  /\ cos (atan (y / x)) * sqrt (1 + (y / x)²) = 1
  /\ sin (atan (y / x)) * sqrt (1 + (y / x)²) = y / x.
Proof.
  intros Hx.
  assert (Hpos : 0 < sqrt (1 + (y / x)²)).
  { apply sqrt_lt_R0. pose proof (Rle_0_sqr (y / x)). lra. }
  split; [|split].
  - rewrite <- sqrt_scale by (pose proof (Rle_0_sqr (y / x)); lra).
    f_equal. unfold Rsqr. field. exact Hx.
  - rewrite cos_atan. field. lra.
  - rewrite sin_atan. field. lra.
Qed.

(** [Math.atan2] gives the polar angle: [cos] and [sin] of it, scaled by
    the length of the vector, give back the vector (also for the zero
    vector, where the angle is 0). *)
Lemma atan2_polar x y :
  cos (atan2 y x) * sqrt (x ^ 2 + y ^ 2) = x
  /\ sin (atan2 y x) * sqrt (x ^ 2 + y ^ 2) = y.
Proof.
  unfold atan2.
  destruct (Rlt_dec 0 x) as [Hx|Hx].
  - destruct (atan_polar x y) as [E [Hc Hs]]; [lra|].
    rewrite E, Rabs_right by lra. split.
    + replace (cos (atan (y / x)) * (x * sqrt (1 + (y / x)²)))
        with (x * (cos (atan (y / x)) * sqrt (1 + (y / x)²))) by ring.
      rewrite Hc; ring.
    + replace (sin (atan (y / x)) * (x * sqrt (1 + (y / x)²)))
        with (x * (sin (atan (y / x)) * sqrt (1 + (y / x)²))) by ring.
      rewrite Hs; field; lra.
  - destruct (Rlt_dec x 0) as [Hx'|Hx'].
    + destruct (atan_polar x y) as [E [Hc Hs]]; [lra|].
      rewrite E, Rabs_left by lra.
      assert (Hcs : cos (atan (y / x) + PI) = - cos (atan (y / x))
                    /\ sin (atan (y / x) + PI) = - sin (atan (y / x))
                    /\ cos (atan (y / x) - PI) = - cos (atan (y / x))
                    /\ sin (atan (y / x) - PI) = - sin (atan (y / x))).
      { rewrite neg_cos, neg_sin. split; [reflexivity|]. split; [reflexivity|].
        pose proof (neg_cos (atan (y / x) - PI)) as C.
        pose proof (neg_sin (atan (y / x) - PI)) as S.
        replace (atan (y / x) - PI + PI) with (atan (y / x)) in C, S by ring.
        split; lra. }
      destruct Hcs as [C1 [S1 [C2 S2]]].
      destruct (Rle_dec 0 y); [rewrite C1, S1|rewrite C2, S2]; split.
      * replace (- cos (atan (y / x)) * (- x * sqrt (1 + (y / x)²)))
          with (x * (cos (atan (y / x)) * sqrt (1 + (y / x)²))) by ring.
        rewrite Hc; ring.
      * replace (- sin (atan (y / x)) * (- x * sqrt (1 + (y / x)²)))
          with (x * (sin (atan (y / x)) * sqrt (1 + (y / x)²))) by ring.
        rewrite Hs; field; lra.
      * replace (- cos (atan (y / x)) * (- x * sqrt (1 + (y / x)²)))
          with (x * (cos (atan (y / x)) * sqrt (1 + (y / x)²))) by ring.
        rewrite Hc; ring.
      * replace (- sin (atan (y / x)) * (- x * sqrt (1 + (y / x)²)))
          with (x * (sin (atan (y / x)) * sqrt (1 + (y / x)²))) by ring.
        rewrite Hs; field; lra.
    + assert (x = 0) as -> by lra.
      replace (0 ^ 2 + y ^ 2) with (y ^ 2) by ring.
      destruct (Rlt_dec 0 y) as [Hy|Hy].
      * rewrite cos_PI2, sin_PI2, sqrt_pow2 by lra. split; ring.
      * destruct (Rlt_dec y 0) as [Hy'|Hy'].
        -- rewrite cos_neg, sin_neg, cos_PI2, sin_PI2.
           rewrite <- (pow2_abs y), sqrt_pow2 by apply Rabs_pos.
           rewrite Rabs_left by lra. split; ring.
        -- assert (y = 0) as -> by lra.
           replace (0 ^ 2) with 0 by ring. rewrite sqrt_0. split; ring.
Qed.

End GeometryFacts.

Module CanvasClaims.
Import Canvas GeometryFacts.
Local Open Scope R_scope.

(** *** Wind efficiency *)

(** In irons, no puff adds its boost. *)
Lemma apply_puffs_irons bx by' ra eff puffs :
  ra < 30 -> apply_puffs bx by' ra eff puffs = eff.
Proof.
  intros Hra. induction puffs as [|p rest IH]; simpl; [reflexivity|].
  destruct (in_puff bx by' p); [|exact IH].
  destruct (Rle_dec 30 ra); [lra|reflexivity].
Qed.

Lemma band_efficiency_irons ra : ra < 30 -> band_efficiency ra = 0.
Proof.
  intros H; unfold band_efficiency; destruct (Rlt_dec ra 30); [reflexivity|lra].
Qed.

Lemma relative_angle_same d : relative_angle d d = 0.
Proof.
  unfold relative_angle. rewrite Rminus_diag, Rabs_R0.
  destruct (Rlt_dec 180 0); [lra|reflexivity].
Qed.

(** A puff centred on the boat contains it. *)
Lemma in_puff_centre bx by' w h b o : in_puff bx by' (mkPuff bx by' w h b o) = true.
Proof.
  unfold in_puff; cbn [puff_x puff_y puff_width puff_height].
  rewrite !Rminus_diag.
  replace ((0 / (w / 2)) ^ 2 + (0 / (h / 2)) ^ 2) with 0
    by (unfold Rdiv; ring).
  rewrite sqrt_0. destruct (Rlt_dec 0 1); [reflexivity|lra].
Qed.

(** The wind shadow of the boat at (100, 100) covers the boat at (100, 120)
    for a shadow length of 30. *)
Lemma turbulence_example :
  isInTurbulenceZone false (100, 120) (100, 100) 0 30 = true.
Proof.
  unfold isInTurbulenceZone, dist.
  replace ((100 - 100) ^ 2 + (120 - 100) ^ 2) with (20 ^ 2) by ring.
  rewrite sqrt_pow2 by lra.
  destruct (Rle_dec 120 100); [lra|].
  destruct (Rlt_dec 30 20); [lra|].
  destruct (Rlt_dec (Rabs (100 - 100)) (20 / 30 * (30 * 0.5))) as [|Hn];
    [reflexivity|].
  exfalso; apply Hn. rewrite Rminus_diag, Rabs_R0. lra.
Qed.

(** Claim C3 (code defect): a boat pointing straight into the wind
    (relative angle 0) that sits inside a puff and in another boat's wind
    shadow gets efficiency 0.1 and maximum speed 5, not 0; without the
    shadow its efficiency and maximum speed are 0 whatever the puffs. *)
Theorem in_irons_shadowed_puff_speed :
  isInTurbulenceZone false (100, 120) (100, 100) 0 30 = true
  /\ relative_angle 0 0 = 0
  /\ in_puff 100 120 (mkPuff 100 120 80 60 0.3 0.5) = true
  /\ wind_efficiency 0 0 100 120 true [mkPuff 100 120 80 60 0.3 0.5] = 0.1
  /\ max_speed 0 0 100 120 true [mkPuff 100 120 80 60 0.3 0.5] = 5
  /\ max_speed 0 0 100 120 false [mkPuff 100 120 80 60 0.3 0.5] = 0.
Proof.
  assert (He : forall sh, wind_efficiency 0 0 100 120 sh [mkPuff 100 120 80 60 0.3 0.5]
                 = shadow_penalty sh 0).
  { intros sh. unfold wind_efficiency. rewrite relative_angle_same.
    rewrite band_efficiency_irons by lra.
    apply apply_puffs_irons; lra. }
  assert (H01 : shadow_penalty true 0 = 0.1).
  { unfold shadow_penalty. apply Rmax_left. lra. }
  split; [exact turbulence_example|].
  split; [apply relative_angle_same|].
  split; [apply in_puff_centre|].
  split; [rewrite He; exact H01|].
  split; unfold max_speed; rewrite He; [rewrite H01; lra|simpl; lra].
Qed.

(** Claim C4: in wind shadow the efficiency becomes
    [max(0.1, efficiency - 0.2)]; a shadowed boat in irons (relative angle
    below 30) ends with efficiency 0.1 and maximum speed 50 * 0.1 = 5, puffs
    or not. *)
Theorem shadow_penalty_in_irons :
  forall windDirection rotation bx by' puffs,
  (forall e, shadow_penalty true e = Rmax 0.1 (e - 0.2))
  /\ (relative_angle windDirection rotation < 30 ->
      wind_efficiency windDirection rotation bx by' true puffs = 0.1
      /\ max_speed windDirection rotation bx by' true puffs = 5
      /\ 0 < max_speed windDirection rotation bx by' true puffs).
Proof.
  intros wd rot bx by' puffs. split; [reflexivity|].
  intros Hra.
  assert (He : wind_efficiency wd rot bx by' true puffs = 0.1).
  { unfold wind_efficiency. rewrite band_efficiency_irons by exact Hra.
    rewrite apply_puffs_irons by exact Hra.
    unfold shadow_penalty. apply Rmax_left. lra. }
  unfold max_speed. rewrite He. split; [reflexivity|]. split; lra.
Qed.

Lemma shadow_penalty_in_irons_witness :
  wind_efficiency 0 0 100 120 true [mkPuff 100 120 80 60 0.3 0.5] = 0.1
  /\ max_speed 0 0 100 120 true [mkPuff 100 120 80 60 0.3 0.5] = 5
  /\ 0 < max_speed 0 0 100 120 true [mkPuff 100 120 80 60 0.3 0.5].
Proof.
  apply (proj2 (shadow_penalty_in_irons 0 0 100 120 [mkPuff 100 120 80 60 0.3 0.5])).
  rewrite relative_angle_same; lra.
Defined.

End CanvasClaims.

Module CollisionClaims.
Import Canvas GeometryFacts.
Local Open Scope R_scope.

(** Claim C5: when the candidate positions of two boats are closer than
    [2 * boatRadius], the pair step pushes them apart along the line of
    centres by [pushDistance = max((2 * boatRadius - distance) * 0.75,
    boatRadius * 0.25)] each (one backwards, one forwards along the unit
    vector from the first to the second), damps both speeds by 0.95, and
    leaves them at distance [distance + 2 * pushDistance >= 2 * boatRadius]. *)
Theorem resolve_pair_separates :
  forall r b1 b2,
  let d := dist (c_x b1) (c_y b1) (c_x b2) (c_y b2) in
  let p := Rmax ((r * 2 - d) * 0.75) (r * 0.25) in
  d < r * 2 ->
  exists n1 n2 ux uy,
    resolve_pair r b1 b2 = Some (n1, n2)
    /\ ux ^ 2 + uy ^ 2 = 1
    /\ ux * d = c_x b2 - c_x b1 /\ uy * d = c_y b2 - c_y b1
    /\ c_x n1 = c_x b1 - ux * p /\ c_y n1 = c_y b1 - uy * p
    /\ c_x n2 = c_x b2 + ux * p /\ c_y n2 = c_y b2 + uy * p
    /\ c_speed n1 = c_speed b1 * 0.95 /\ c_speed n2 = c_speed b2 * 0.95
    /\ c_id n1 = c_id b1 /\ c_id n2 = c_id b2
    /\ dist (c_x n1) (c_y n1) (c_x n2) (c_y n2) = d + 2 * p
    /\ r * 2 <= dist (c_x n1) (c_y n1) (c_x n2) (c_y n2).
Proof.
  intros r [i1 x1 y1 s1] [i2 x2 y2 s2] d p Hd.
  cbn [c_x c_y c_speed c_id] in *.
  set (th := atan2 (y2 - y1) (x2 - x1)).
  assert (Ed : d = sqrt ((x2 - x1) ^ 2 + (y2 - y1) ^ 2)).
  { subst d; unfold dist; f_equal; ring. }
  destruct (atan2_polar (x2 - x1) (y2 - y1)) as [Hc Hs].
  fold th in Hc, Hs. rewrite <- Ed in Hc, Hs.
  assert (Hcs : cos th ^ 2 + sin th ^ 2 = 1).
  { rewrite <- !Rsqr_pow2, Rplus_comm; apply sin2_cos2. }
  assert (Hd0 : 0 <= d) by (subst d; apply sqrt_pos).
  assert (Hp : (r * 2 - d) * 0.75 <= p) by (subst p; apply Rmax_l).
  exists (mkCollision i1 (x1 - cos th * p) (y1 - sin th * p) (s1 * 0.95)),
         (mkCollision i2 (x2 + cos th * p) (y2 + sin th * p) (s2 * 0.95)),
         (cos th), (sin th).
  assert (Hdist : dist (x1 - cos th * p) (y1 - sin th * p)
                       (x2 + cos th * p) (y2 + sin th * p) = d + 2 * p).
  { unfold dist.
    replace ((x1 - cos th * p - (x2 + cos th * p)) ^ 2
             + (y1 - sin th * p - (y2 + sin th * p)) ^ 2)
      with ((cos th ^ 2 + sin th ^ 2) * (d + 2 * p) ^ 2).
    - rewrite Hcs, Rmult_1_l. apply sqrt_pow2. lra.
    - replace x2 with (x1 + cos th * d) by lra.
      replace y2 with (y1 + sin th * d) by lra. ring. }
  cbn [c_x c_y c_speed c_id].
  split.
  - unfold resolve_pair; cbn [c_x c_y c_speed c_id]. fold d.
    destruct (Rlt_dec d (r * 2)); [|contradiction]. fold th. fold p.
    reflexivity.
  - repeat split; try reflexivity; lra.
Qed.

Lemma resolve_pair_separates_witness :
  exists n1 n2 ux uy,
    resolve_pair 10 (mkCollision 1 100 100 20) (mkCollision 2 110 100 30) = Some (n1, n2)
    /\ 10 * 2 <= dist (c_x n1) (c_y n1) (c_x n2) (c_y n2)
    /\ ux ^ 2 + uy ^ 2 = 1.
Proof.
  assert (Hd : dist 100 100 110 100 = 10).
  { unfold dist. replace ((100 - 110) ^ 2 + (100 - 100) ^ 2) with (10 ^ 2) by ring.
    apply sqrt_pow2; lra. }
  destruct (resolve_pair_separates 10 (mkCollision 1 100 100 20) (mkCollision 2 110 100 30))
    as (n1 & n2 & ux & uy & H1 & H2 & _ & _ & _ & _ & _ & _ & _ & _ & _ & _ & _ & H3).
  - cbn [c_x c_y]. rewrite Hd. lra.
  - exists n1, n2, ux, uy. split; [exact H1|]. split; [exact H3|exact H2].
Defined.

(** Claim C9: [isInTurbulenceZone] does not depend on the blocking boat's
    rotation (and takes no wind direction): outside single-boat mode it
    holds exactly when the boat is south of the blocker ([y] larger), within
    [shadowLength] of it, and its horizontal offset is below
    [(distance / shadowLength) * (shadowLength * 0.5)]; in single-boat mode
    it is always false. *)
Theorem turbulence_zone_due_south :
  forall singleBoatMode bx by' kx ky rot1 rot2 shadowLength,
  isInTurbulenceZone singleBoatMode (bx, by') (kx, ky) rot1 shadowLength
    = isInTurbulenceZone singleBoatMode (bx, by') (kx, ky) rot2 shadowLength
  /\ (singleBoatMode = true ->
      isInTurbulenceZone singleBoatMode (bx, by') (kx, ky) rot1 shadowLength = false)
  /\ (singleBoatMode = false ->
      (isInTurbulenceZone singleBoatMode (bx, by') (kx, ky) rot1 shadowLength = true
       <-> by' > ky
           /\ dist bx by' kx ky <= shadowLength
           /\ Rabs (bx - kx) < (dist bx by' kx ky / shadowLength) * (shadowLength * 0.5))).
Proof.
  intros sb bx by' kx ky rot1 rot2 L.
  split; [reflexivity|]. split; [intros ->; reflexivity|].
  intros ->. unfold isInTurbulenceZone.
  destruct (Rle_dec by' ky); [split; [discriminate|lra]|].
  destruct (Rlt_dec L (dist bx by' kx ky)); [split; [discriminate|lra]|].
  destruct (Rlt_dec (Rabs (bx - kx)) (dist bx by' kx ky / L * (L * 0.5)));
    split; try discriminate; try lra; intros _; repeat split; lra.
Qed.

Lemma turbulence_zone_due_south_witness :
  isInTurbulenceZone false (100, 120) (100, 100) 45 30 = true.
Proof.
  destruct (turbulence_zone_due_south false 100 120 100 100 45 0 30) as [E [_ _]].
  rewrite E. exact CanvasClaims.turbulence_example.
Defined.

(** Boundary clamping keeps a coordinate in [[m, size - m]] when that band is
    not empty. *)
Lemma clamp_axis_bounds v m size :
  m <= size - m -> m <= clamp_axis v m size <= size - m.
Proof.
  intros H. unfold clamp_axis.
  destruct (Rlt_dec v m); [lra|].
  destruct (Rlt_dec (size - m) v); lra.
Qed.

(** Claim C10: for any window size, heading, speed, current and tick length,
    the kinematic update of a boat (candidate position, then clamping)
    lands in [[boundaryMargin, canvas.width - boundaryMargin] x
    [boundaryMargin, canvas.height - boundaryMargin]] with
    [boundaryMargin = 2 * boatRadius]. *)
Theorem kinematic_update_in_bounds :
  forall innerWidth innerHeight x y rotation speed currentDirection currentSpeed deltaTime,
  0 <= innerWidth -> 0 <= innerHeight ->
  let m := boundaryMargin innerWidth innerHeight in
  let '(nx, ny) := kinematic_update innerWidth innerHeight
                     x y rotation speed currentDirection currentSpeed deltaTime in
  m = 2 * boatRadius innerWidth innerHeight
  /\ m <= nx <= canvas_width innerWidth - m
  /\ m <= ny <= canvas_height innerHeight - m.
Proof.
  intros iw ih x y rot sp cd cs dt Hw Hh m.
  unfold kinematic_update.
  destruct (candidate_position x y rot sp cd cs dt) as [nx ny].
  fold m.
  assert (Hm1 : m <= Rmin iw ih * 0.03).
  { subst m; unfold boundaryMargin, boatRadius; lra. }
  pose proof (Rmin_l iw ih). pose proof (Rmin_r iw ih).
  assert (Hm0 : 0 <= Rmin iw ih) by (apply Rmin_glb; assumption).
  split; [subst m; unfold boundaryMargin; ring|].
  split; apply clamp_axis_bounds;
    unfold canvas_width, canvas_height, boundaryMargin, boatRadius in *; lra.
Qed.

Lemma kinematic_update_in_bounds_witness :
  let '(nx, ny) := kinematic_update 1000 800 5000 (-20) 45 30 90 2 0.016 in
  12 <= nx <= 1100 - 12 /\ 12 <= ny <= 880 - 12.
Proof.
  pose proof (kinematic_update_in_bounds 1000 800 5000 (-20) 45 30 90 2 0.016)
    as H.
  destruct (kinematic_update 1000 800 5000 (-20) 45 30 90 2 0.016) as [nx ny].
  destruct H as [_ [Hx Hy]]; try lra.
  unfold boundaryMargin, boatRadius, canvas_width, canvas_height in *.
  rewrite Rmin_right in Hx, Hy by lra. split; lra.
Defined.

End CollisionClaims.

(* ------------------------------------------------------------------ *)
(** ** Wind direction containment *)

Module WindFacts.
Import Wind.
Local Open Scope R_scope.

Lemma Int_part_small q k : IZR k <= q < IZR k + 1 -> Int_part q = k.
Proof.
  intros [H1 H2]. destruct (base_Int_part q) as [B1 B2].
  assert (Hu : (Int_part q < k + 1)%Z).
  { apply lt_IZR. rewrite plus_IZR. lra. }
  assert (Hl : (k - 1 < Int_part q)%Z).
  { apply lt_IZR. rewrite minus_IZR. lra. }
  lia.
Qed.

Lemma js_rem_low x : 0 <= x < 360 -> js_rem x 360 = x.
Proof.
  intros H. unfold js_rem, trunc.
  destruct (Rle_dec 0 (x / 360)) as [_|n]; [|lra].
  rewrite (Int_part_small (x / 360) 0) by (simpl; lra). simpl; ring.
Qed.

Lemma js_rem_high x : 360 <= x < 720 -> js_rem x 360 = x - 360.
Proof.
  intros H. unfold js_rem, trunc.
  destruct (Rle_dec 0 (x / 360)) as [_|n]; [|lra].
  rewrite (Int_part_small (x / 360) 1) by (simpl; lra). simpl; ring.
Qed.

Lemma js_rem_neg x : -360 < x < 0 -> js_rem x 360 = x.
Proof.
  intros H. unfold js_rem, trunc.
  destruct (Rle_dec 0 (x / 360)) as [n|_]; [lra|].
  rewrite (Int_part_small (- (x / 360)) 0) by (simpl; lra). simpl; ring.
Qed.

(** One shift from a direction in [[0, 360)] by less than a full turn lands
    in the allowed band. *)
Lemma shift_direction_in_range range d s :
  0 < range <= 180 -> 0 <= d < 360 -> -360 < s < 360 ->
  in_wind_range range (shift_direction range d s).
Proof.
  intros Hr Hd Hs. unfold shift_direction, in_wind_range.
  assert (Hnd : exists nd0, js_rem (d + s) 360 = nd0 /\ -360 < nd0 < 360).
  { destruct (Rlt_dec (d + s) 0).
    - exists (d + s); split; [apply js_rem_neg; lra|lra].
    - destruct (Rlt_dec (d + s) 360).
      + exists (d + s); split; [apply js_rem_low; lra|lra].
      + exists (d + s - 360); split; [apply js_rem_high; lra|lra]. }
  destruct Hnd as [nd0 [-> Hn0]].
  set (nd := if Rlt_dec nd0 0 then nd0 + 360 else nd0).
  assert (Hn : 0 <= nd < 360).
  { subst nd; destruct (Rlt_dec nd0 0); lra. }
  clearbody nd.
  destruct (Req_EM_T nd 0); [lra|].
  destruct (Req_EM_T nd 360); [lra|].
  destruct (Rlt_dec 0 nd); [|lra].
  destruct (Rle_dec nd 180).
  - destruct (Rlt_dec range nd); lra.
  - destruct (Rlt_dec nd 360); [|lra].
    destruct (Rlt_dec nd (360 - range)); lra.
Qed.

Lemma randomShift_bound s r1 r2 : 0 <= r2 < 1 -> -360 < randomShift s r1 r2 < 360.
Proof.
  intros H. destruct s; unfold randomShift, shiftMagnitude; simpl;
    repeat match goal with
    | |- context [if ?c then _ else _] => destruct c
    end; lra.
Qed.

Lemma venue_range_bounds s :
  0 < windDirectionRange (locationSettings s) <= 180.
Proof. destruct s; simpl; lra. Qed.

End WindFacts.

Module WindClaims.
Import Wind WindFacts.
Local Open Scope R_scope.

(** Claim C8: at every venue, from a direction in
    [[0, range] ∪ [360 - range, 360)] ([range] the venue's
    [windDirectionRange]), any number of [updateWindDirection()] calls,
    with any [Math.random()] draws in [[0, 1)], keeps the direction in that
    band. *)
Theorem wind_direction_stays_in_range :
  forall s d draws,
  in_wind_range (windDirectionRange (locationSettings s)) d ->
  Forall (fun rr => 0 <= fst rr < 1 /\ 0 <= snd rr < 1) draws ->
  in_wind_range (windDirectionRange (locationSettings s)) (update_many s d draws).
Proof.
  intros s d draws Hd Hdr. revert d Hd.
  pose proof (venue_range_bounds s) as Hr.
  induction Hdr as [|[r1 r2] rest [_ Hr2] _ IH]; intros d Hd; simpl; [exact Hd|].
  apply IH. unfold updateWindDirection.
  apply shift_direction_in_range; [exact Hr| |apply randomShift_bound; exact Hr2].
  unfold in_wind_range in Hd; lra.
Qed.

Lemma wind_direction_stays_in_range_witness :
  in_wind_range 20 (update_many newportharbor 0 [(0.7, 0.2); (0.1, 0.9)]).
Proof.
  apply (wind_direction_stays_in_range newportharbor 0 [(0.7, 0.2); (0.1, 0.9)]).
  - left; simpl; lra.
  - repeat constructor; simpl; lra.
Defined.

End WindClaims.

(* ------------------------------------------------------------------ *)
Module RaceStoreExtFacts.
Import RaceStore RaceStoreFacts RaceStoreExt.

Definition result_key (r : RaceResult) : Z * option Z := (r_userId r, boatNumber r).
Definition boat_key_of (b : Boat) : Z * option Z := (userId b, boat_number (id b)).

(** What [finishRace] keeps of the results: one result per boat, each one
    carrying the user id and the parsed number of a boat of the race. *)
Definition results_wf (bs : list Boat) (rs : list RaceResult) : Prop :=
  NoDup (map result_key rs)
  /\ Forall (fun r => boatNumber r <> None /\ In (result_key r) (map boat_key_of bs)) rs.

Lemma set_phase_boats st p : boats (set_phase st p) = boats st.
Proof. destruct st; reflexivity. Qed.

Lemma finishRace_boats st b t : boats (finishRace st b t) = boats st.
Proof.
  destruct (finishRace_cases st b t) as [E|[[_ E]|[boat [_ [_ [_ E]]]]]];
    rewrite E.
  - reflexivity.
  - apply set_stage_boats.
  - destruct (Nat.leb _ _);
      rewrite ?set_phase_boats, set_stage_boats, set_results_boats; reflexivity.
Qed.

Lemma finish_all_boats st calls : boats (finish_all st calls) = boats st.
Proof.
  revert st; induction calls as [|[b t] rest IH]; intros st; simpl; [reflexivity|].
  rewrite IH; apply finishRace_boats.
Qed.

Lemma assign_keys n l : map result_key (assign_positions n l) = map result_key l.
Proof.
  revert n; induction l as [|h t IH]; intros n; simpl; [reflexivity|].
  rewrite IH; reflexivity.
Qed.

Lemma assign_numbers n l : map boatNumber (assign_positions n l) = map boatNumber l.
Proof.
  revert n; induction l as [|h t IH]; intros n; simpl; [reflexivity|].
  rewrite IH; reflexivity.
Qed.

Lemma recorded_keys st boat b t :
  Permutation
    (map result_key (assign_positions 1 (sort_by_time (results st ++ [new_result boat b t]))))
    (map result_key (results st) ++ [(userId boat, boat_number b)]).
Proof.
  rewrite assign_keys, <- map_app with (l' := [new_result boat b t]).
  apply Permutation_map, sort_perm.
Qed.

Lemma completed_number st b :
  completed st b = true -> exists k, boat_number b = Some k.
Proof.
  unfold completed, stage_of.
  destruct (String.eqb_spec b "boat-1"); [subst; eexists; reflexivity|].
  destruct (String.eqb_spec b "boat-2"); [subst; eexists; reflexivity|].
  destruct (String.eqb_spec b "boat-3"); [subst; eexists; reflexivity|].
  destruct (String.eqb_spec b "boat-4"); [subst; eexists; reflexivity|].
  discriminate.
Qed.

Lemma find_id bs b boat :
  find (fun x => String.eqb (id x) b) bs = Some boat -> In boat bs /\ id boat = b.
Proof.
  intros H. apply find_some in H as [H1 H2].
  split; [exact H1|apply String.eqb_eq, H2].
Qed.

Lemma not_duplicate st boat b k :
  boat_number b = Some k -> duplicate st boat b = false ->
  ~ In (userId boat, Some k) (map result_key (results st)).
Proof.
  intros Hk Hd Hin. apply in_map_iff in Hin as [r [Hr Hin]].
  unfold result_key in Hr; injection Hr as Hu Hn.
  unfold duplicate in Hd. rewrite Hk in Hd.
  assert (existsb (fun r => Z.eqb (r_userId r) (userId boat)
                            && num_eqb (boatNumber r) (Some k)) (results st) = true)
    as Ht.
  { apply existsb_exists. exists r. split; [exact Hin|].
    rewrite Hu, Hn. simpl. rewrite !Z.eqb_refl. reflexivity. }
  congruence.
Qed.

Lemma duplicate_of_in st boat b k :
  boat_number b = Some k ->
  In (userId boat, Some k) (map result_key (results st)) ->
  duplicate st boat b = true.
Proof.
  intros Hk Hin. apply in_map_iff in Hin as [r [Hr Hin]].
  unfold result_key in Hr; injection Hr as Hu Hn.
  unfold duplicate. rewrite Hk. apply existsb_exists. exists r.
  split; [exact Hin|]. rewrite Hu, Hn. simpl. rewrite !Z.eqb_refl. reflexivity.
Qed.

(** The result list of a recording call. *)
Lemma finishRace_recorded_results st b t :
  (List.length (results (finishRace st b t)) <> List.length (results st)) ->
  exists boat k,
    find (fun x => String.eqb (id x) b) (boats st) = Some boat
    /\ duplicate st boat b = false
    /\ boat_number b = Some k
    /\ results (finishRace st b t)
       = assign_positions 1 (sort_by_time (results st ++ [new_result boat b t])).
Proof.
  intros Hl.
  destruct (finishRace_cases st b t) as [E|[[_ E]|[boat [Hf [Hd [Hc E]]]]]].
  - rewrite E in Hl; contradiction.
  - rewrite E, set_stage_results in Hl; contradiction.
  - destruct (completed_number st b Hc) as [k Hk].
    exists boat, k. split; [exact Hf|]. split; [exact Hd|]. split; [exact Hk|].
    rewrite E. destruct (Nat.leb _ _);
      rewrite ?set_phase_results, set_stage_results, set_results_results; reflexivity.
Qed.

Lemma finishRace_results_cases st b t :
  results (finishRace st b t) = results st
  \/ List.length (results (finishRace st b t)) <> List.length (results st).
Proof.
  destruct (finishRace_cases st b t) as [E|[[_ E]|[boat [_ [_ [_ E]]]]]].
  - left; rewrite E; reflexivity.
  - left; rewrite E, set_stage_results; reflexivity.
  - right. rewrite E. destruct (Nat.leb _ _);
      rewrite ?set_phase_results, set_stage_results, set_results_results,
        assign_length, sort_length, length_app; simpl; lia.
Qed.

Lemma finishRace_results_wf st b t :
  results_wf (boats st) (results st) ->
  results_wf (boats st) (results (finishRace st b t)).
Proof.
  intros [Hnd Hall].
  destruct (finishRace_results_cases st b t) as [E|Hl];
    [rewrite E; split; assumption|].
  destruct (finishRace_recorded_results st b t Hl)
    as [boat [k [Hf [Hd [Hk E]]]]].
  rewrite E. destruct (find_id _ _ _ Hf) as [Hin Hid].
  pose proof (recorded_keys st boat b t) as Hp.
  split.
  - eapply Permutation_NoDup; [symmetry; exact Hp|].
    apply NoDup_app; [exact Hnd|constructor; [intros []|constructor]|].
    intros x Hx [<-|[]]. rewrite Hk in Hx.
    exact (not_duplicate st boat b k Hk Hd Hx).
  - apply Forall_forall. intros r Hr.
    assert (Hkey : In (result_key r) (map result_key (results st))
                   \/ result_key r = (userId boat, boat_number b)).
    { assert (In (result_key r) (map result_key (results st) ++
                                 [(userId boat, boat_number b)])) as H'.
      { eapply Permutation_in; [exact Hp|]. apply in_map, Hr. }
      apply in_app_or in H' as [H'|[H'|[]]]; [left; exact H'|right; symmetry; exact H']. }
    destruct Hkey as [Hkey|Hkey].
    + apply in_map_iff in Hkey as [r0 [Hr0 Hin0]].
      rewrite Forall_forall in Hall. destruct (Hall r0 Hin0) as [Hn0 Hb0].
      rewrite <- Hr0. split; [|exact Hb0].
      unfold result_key in Hr0. injection Hr0 as _ Hn. rewrite <- Hn. exact Hn0.
    + unfold result_key in Hkey. injection Hkey as Hu Hn. split.
      * rewrite Hn, Hk. discriminate.
      * unfold result_key. rewrite Hu, Hn. apply in_map_iff. exists boat.
        split; [unfold boat_key_of; rewrite Hid; reflexivity|exact Hin].
Qed.

(** The keys of the results only grow. *)
Lemma finishRace_keys_incl st b t :
  incl (map result_key (results st)) (map result_key (results (finishRace st b t))).
Proof.
  destruct (finishRace_results_cases st b t) as [E|Hl];
    [rewrite E; apply incl_refl|].
  destruct (finishRace_recorded_results st b t Hl) as [boat [k [_ [_ [_ E]]]]].
  rewrite E. intros x Hx. eapply Permutation_in;
    [symmetry; apply recorded_keys|]. apply in_or_app; left; exact Hx.
Qed.

Lemma finish_all_keys_incl st calls :
  incl (map result_key (results st)) (map result_key (results (finish_all st calls))).
Proof.
  revert st; induction calls as [|[b t] rest IH]; intros st; simpl;
    [apply incl_refl|].
  eapply incl_tran; [apply finishRace_keys_incl|apply IH].
Qed.

Lemma finishRace_phase_values st b t :
  phase (finishRace st b t) = phase st \/ phase (finishRace st b t) = PhaseFinished.
Proof.
  destruct (finishRace_cases st b t) as [E|[[_ E]|[boat [_ [_ [_ E]]]]]];
    rewrite E.
  - left; reflexivity.
  - left; apply set_stage_phase.
  - destruct (Nat.leb _ _); [right; apply set_phase_phase|].
    left; rewrite set_stage_phase, set_results_phase; reflexivity.
Qed.

End RaceStoreExtFacts.

Module RaceStoreExtra.
Import RaceStore RaceStoreFacts RaceStoreExt RaceStoreExtFacts Canvas.
Local Open Scope string_scope.

(** [initializeRace] builds [max 1 (min boatCount 4)] boats named
    [boat-1], [boat-2], ... in order; [parseInt(id.split('-')[1])] gives back
    each boat's number, so the ids are distinct; every boat carries the
    signed-in user's id (1 when signed out), the local boat is the first
    one, and the race starts in [pre-start] with no results and every stage
    [Not Started]. *)
Theorem initializeRace_boats :
  forall u bc st,
  let st' := initializeRace u bc st in
  let bs := boats (race st') in
  let n := Nat.max 1 (Nat.min bc 4) in
  List.length bs = n
  /\ map id bs = map (fun k => ("boat-" ++ digit_string k)%string) (seq 1 n)
  /\ map (fun b => boat_number (id b)) bs = map (fun k => Some (Z.of_nat k)) (seq 1 n)
  /\ NoDup (map id bs)
  /\ Forall (fun b => userId b = actual_user_id u) bs
  /\ localBoat st' = hd_error bs
  /\ results (race st') = []
  /\ phase (race st') = PreStart
  /\ (forall k, boat_stage (race st') k = NotStarted).
Proof.
  intros u bc st st' bs n. subst st' bs n.
  destruct bc as [|[|[|[|bc]]]]; simpl; rewrite ?Nat.min_0_r; simpl;
    (split; [reflexivity|]);
    (split; [reflexivity|]);
    (split; [reflexivity|]);
    (split; [repeat constructor; simpl; intuition discriminate|]);
    (split; [repeat constructor|]);
    (split; [reflexivity|]);
    (split; [reflexivity|]);
    (split; [reflexivity|]);
    intros [|[|[|[|k]]]]; reflexivity.
Qed.

(** From a store with no results, any sequence of [finishRace] calls keeps
    the boats, records at most one result per boat (no two results share
    a user id and boat number), every result names a boat of the race with
    a parsed boat number, and there are never more results than boats. *)
Theorem finish_all_results_invariant :
  forall st calls,
  results st = [] ->
  let st' := finish_all st calls in
  boats st' = boats st
  /\ NoDup (map result_key (results st'))
  /\ Forall (fun r => boatNumber r <> None
                      /\ In (result_key r) (map boat_key_of (boats st)))
       (results st')
  /\ (List.length (results st') <= List.length (boats st))%nat.
Proof.
  intros st calls H0 st'. subst st'.
  assert (Hwf : results_wf (boats st) (results (finish_all st calls))).
  { assert (Hinit : results_wf (boats st) (results st)).
    { rewrite H0. split; constructor. }
    clear H0. revert st Hinit.
    induction calls as [|[b t] rest IH]; intros st Hinit; simpl; [exact Hinit|].
    rewrite <- (finishRace_boats st b t). apply IH.
    rewrite finishRace_boats. apply finishRace_results_wf, Hinit. }
  destruct Hwf as [Hnd Hall].
  split; [apply finish_all_boats|]. split; [exact Hnd|]. split; [exact Hall|].
  rewrite <- (length_map result_key), <- (length_map boat_key_of).
  apply NoDup_incl_length; [exact Hnd|].
  intros x Hx. apply in_map_iff in Hx as [r [<- Hr]].
  rewrite Forall_forall in Hall. apply (Hall r Hr).
Qed.

Lemma finish_all_results_invariant_witness :
  results (mkState Racing two_boats [] FinishLeg FinishLeg NotStarted NotStarted) = []
  /\ (List.length (results (finish_all
        (mkState Racing two_boats [] FinishLeg FinishLeg NotStarted NotStarted)
        [("boat-1", 90); ("boat-1", 80); ("boat-2", 120)]%Z)) <= 2)%nat.
Proof.
  split; [reflexivity|].
  exact (proj2 (proj2 (proj2 (finish_all_results_invariant
    (mkState Racing two_boats [] FinishLeg FinishLeg NotStarted NotStarted)
    [("boat-1", 90); ("boat-1", 80); ("boat-2", 120)]%Z eq_refl)))).
Defined.

(** Once a [finishRace] call has recorded a result for a boat, every later
    call for the same boat id, after any other calls and with any time,
    leaves the race state unchanged: the first recorded time stands. *)
Theorem finishRace_recorded_then_noop :
  forall st b t calls t',
  List.length (results (finishRace st b t)) <> List.length (results st) ->
  let st2 := finish_all (finishRace st b t) calls in
  finishRace st2 b t' = st2.
Proof.
  intros st b t calls t' Hl st2. subst st2.
  destruct (finishRace_recorded_results st b t Hl) as [boat [k [Hf [Hd [Hk E]]]]].
  assert (Hin : In (userId boat, Some k)
                  (map result_key (results (finish_all (finishRace st b t) calls)))).
  { apply finish_all_keys_incl. rewrite E.
    eapply Permutation_in; [symmetry; apply recorded_keys|].
    apply in_or_app; right; rewrite Hk; left; reflexivity. }
  unfold finishRace at 1.
  rewrite finish_all_boats, finishRace_boats, Hf.
  fold (duplicate (finish_all (finishRace st b t) calls) boat b).
  rewrite (duplicate_of_in _ boat b k Hk Hin). reflexivity.
Qed.

Lemma finishRace_recorded_then_noop_witness :
  List.length (results (finishRace
    (mkState Racing two_boats [] FinishLeg FinishLeg NotStarted NotStarted) "boat-1" 100))
  <> List.length (results
    (mkState Racing two_boats [] FinishLeg FinishLeg NotStarted NotStarted))
  /\ let st2 := finish_all (finishRace
       (mkState Racing two_boats [] FinishLeg FinishLeg NotStarted NotStarted) "boat-1" 100)
       [("boat-2", 120)%Z] in
     finishRace st2 "boat-1" 50 = st2.
Proof.
  assert (H : List.length (results (finishRace
    (mkState Racing two_boats [] FinishLeg FinishLeg NotStarted NotStarted) "boat-1" 100))
    <> List.length (results
    (mkState Racing two_boats [] FinishLeg FinishLeg NotStarted NotStarted)))
    by (vm_compute; discriminate).
  split; [exact H|].
  exact (finishRace_recorded_then_noop _ "boat-1" 100 [("boat-2", 120)%Z] 50 H).
Defined.

(** [finishRace] ignores an id that names no boat of the race, and the
    only phase it ever sets is [finished]: the phase stays or becomes
    [finished], and a finished race stays finished. *)
Theorem finishRace_unknown_id_and_phase :
  forall st b t,
  (find (fun x => String.eqb (id x) b) (boats st) = None -> finishRace st b t = st)
  /\ (phase (finishRace st b t) = phase st
      \/ phase (finishRace st b t) = PhaseFinished)
  /\ (phase st = PhaseFinished -> phase (finishRace st b t) = PhaseFinished).
Proof.
  intros st b t. split; [|split].
  - intros H. unfold finishRace. rewrite H. reflexivity.
  - apply finishRace_phase_values.
  - intros Hp. destruct (finishRace_phase_values st b t) as [E|E];
      rewrite E; [exact Hp|reflexivity].
Qed.

Lemma finishRace_unknown_id_and_phase_witness :
  finishRace (mkState Racing two_boats [] FinishLeg FinishLeg NotStarted NotStarted)
    "boat-3" 100
  = mkState Racing two_boats [] FinishLeg FinishLeg NotStarted NotStarted
  /\ phase (finishRace (mkState PhaseFinished two_boats [] FinishLeg FinishLeg
                          NotStarted NotStarted) "boat-1" 100) = PhaseFinished.
Proof.
  split.
  - apply (proj1 (finishRace_unknown_id_and_phase
      (mkState Racing two_boats [] FinishLeg FinishLeg NotStarted NotStarted)
      "boat-3" 100)). vm_compute. reflexivity.
  - apply (proj2 (proj2 (finishRace_unknown_id_and_phase
      (mkState PhaseFinished two_boats [] FinishLeg FinishLeg NotStarted NotStarted)
      "boat-1" 100))). reflexivity.
Defined.

(** The finish-line branch of [draw] for boat [k] (1 to 4) always records a
    result when the store has that boat and no result for it yet, whatever
    stage the store held for the boat: the result list becomes the old one
    plus the new result, sorted by time and ranked, and the boat's stage is
    [Finished]. *)
Theorem finish_line_handler_records :
  forall st k t boat,
  (1 <= k <= 4)%nat ->
  find (fun x => String.eqb (id x) (Canvas.boat_key k)) (boats st) = Some boat ->
  duplicate st boat (Canvas.boat_key k) = false ->
  let st' := finish_line_handler st k t in
  results st' = assign_positions 1 (sort_by_time
                  (results st ++ [new_result boat (Canvas.boat_key k) t]))
  /\ Canvas.boat_stage st' k = Finished.
Proof.
  intros st k t boat Hk Hf Hd st'. subst st'.
  assert (Hs : stage_of st (Canvas.boat_key k) <> None).
  { destruct k as [|[|[|[|[|k]]]]]; try lia; destruct st; discriminate. }
  unfold finish_line_handler. rewrite set_stage_boats, Hf.
  unfold finishRace. rewrite set_stage_boats, Hf.
  fold (duplicate (set_stage st (Canvas.boat_key k) Finished) boat (Canvas.boat_key k)).
  unfold duplicate in *. rewrite set_stage_results, Hd.
  rewrite (stage_of_set_stage st _ Finished Hs). simpl.
  assert (Hst : forall s0, Canvas.boat_stage
            (set_stage (set_results s0 (assign_positions 1 (sort_by_time
               (results st ++ [mkResult (userId boat) (username boat) t 0
                                 (boat_number (Canvas.boat_key k))]))))
               (Canvas.boat_key k) Finished) k = Finished
          /\ Canvas.boat_stage (set_phase
            (set_stage (set_results s0 (assign_positions 1 (sort_by_time
               (results st ++ [mkResult (userId boat) (username boat) t 0
                                 (boat_number (Canvas.boat_key k))]))))
               (Canvas.boat_key k) Finished) PhaseFinished) k = Finished).
  { intros s0. destruct s0.
    destruct k as [|[|[|[|[|k]]]]]; try lia; split; reflexivity. }
  destruct (Nat.leb _ _); [split; [|apply Hst]|split; [|apply Hst]].
  - rewrite set_phase_results, set_stage_results, set_results_results. reflexivity.
  - rewrite set_stage_results, set_results_results. reflexivity.
Qed.

Lemma finish_line_handler_records_witness :
  results (finish_line_handler
    (mkState Racing two_boats [] StartLeg NotStarted NotStarted NotStarted) 1 100)
  = assign_positions 1 (sort_by_time
      [new_result (createInitialBoat 1 "Player 1" 0 true) "boat-1" 100]).
Proof.
  apply (finish_line_handler_records
    (mkState Racing two_boats [] StartLeg NotStarted NotStarted NotStarted) 1 100
    (createInitialBoat 1 "Player 1" 0 true)); [lia|reflexivity|reflexivity].
Defined.

Lemma set_boats_boats st bs : boats (set_boats st bs) = bs.
Proof. destruct st; reflexivity. Qed.

(** [updateBoat(boatId, updates)] with updates that keep the id: looking
    the boat up afterwards finds the old boat with the updates applied (and
    still nothing when there was no such boat), the number of boats stays,
    the other boats keep their places and values, and a local boat with
    that id is updated as well. *)
Theorem updateBoat_lookup :
  forall st b u,
  (upd_id u = None \/ upd_id u = Some b) ->
  let st' := updateBoat st b u in
  find (fun x => String.eqb (id x) b) (boats (race st'))
    = option_map (fun x => apply_update x u)
        (find (fun x => String.eqb (id x) b) (boats (race st)))
  /\ List.length (boats (race st')) = List.length (boats (race st))
  /\ (forall i x, nth_error (boats (race st)) i = Some x -> id x <> b ->
        nth_error (boats (race st')) i = Some x)
  /\ (forall lb, localBoat st = Some lb -> id lb = b ->
        localBoat st' = Some (apply_update lb u)).
Proof.
  intros st b u Hu st'. subst st'. unfold updateBoat; simpl.
  rewrite set_boats_boats.
  split; [|split; [|split]].
  - induction (boats (race st)) as [|x l IH]; [reflexivity|].
    cbn [map find]. destruct (id x =? b) eqn:E.
    + assert (Hid : id (apply_update x u) = b).
      { apply String.eqb_eq in E.
        destruct Hu as [Hu|Hu]; unfold apply_update; simpl; rewrite Hu;
          [exact E|reflexivity]. }
      rewrite Hid, String.eqb_refl. reflexivity.
    + rewrite E. exact IH.
  - apply length_map.
  - intros i x Hx Hne. rewrite nth_error_map, Hx. simpl.
    apply String.eqb_neq in Hne. rewrite Hne. reflexivity.
  - intros lb Hl Hid. rewrite Hl, Hid, String.eqb_refl. reflexivity.
Qed.

Lemma updateBoat_lookup_witness :
  option_map id (find (fun x => String.eqb (id x) "boat-2")
    (boats (race (updateBoat (initializeRace None 2 initialStore) "boat-2"
       (mkUpdate None None None None (Some 45%R) None None None None None)))))
  = Some "boat-2"%string.
Proof.
  rewrite (proj1 (updateBoat_lookup (initializeRace None 2 initialStore) "boat-2"
       (mkUpdate None None None None (Some 45%R) None None None None None)
       (or_introl eq_refl))).
  reflexivity.
Defined.

Lemma with_local_self st lb : localBoat st = Some lb -> with_local st lb = st.
Proof. destruct st; simpl; intros ->; reflexivity. Qed.

Lemma with_local_twice st a b : with_local (with_local st a) b = with_local st b.
Proof. destruct st; reflexivity. Qed.

(** The controls [setDirection], [tack] and [trimSail] change only the
    local boat: every other field of the store ([race], [startTime],
    [timeRemaining], [raceTime]) is left as it was, in particular the race
    state whose [boats] array the finish logic and the results read, and
    without a local boat the store is unchanged; tacking twice gives back
    the store; and right after [initializeRace] one tack makes the local
    boat differ from the first boat of the array it was copied from. *)
Theorem controls_local_only :
  forall st d p,
  race (setDirection st d) = race st
  /\ race (tackAction st) = race st
  /\ race (trimSail st p) = race st
  /\ (forall c, (c = setDirection st d \/ c = tackAction st \/ c = trimSail st p) ->
        c = mkStore (race st) (startTime st) (timeRemaining st) (raceTime st) (localBoat c)
        /\ (localBoat st = None -> c = st))
  /\ tackAction (tackAction st) = st
  /\ (forall u bc st0,
        localBoat (tackAction (initializeRace u bc st0))
        <> hd_error (boats (race (tackAction (initializeRace u bc st0))))).
Proof.
  intros st d p. split; [|split; [|split; [|split; [|split]]]].
  - unfold setDirection. destruct (localBoat st); reflexivity.
  - unfold tackAction. destruct (localBoat st); reflexivity.
  - unfold trimSail. destruct (localBoat st); reflexivity.
  - intros c Hc. destruct st as [r0 s0 tr0 rt0 lb0]; cbn [localBoat].
    destruct Hc as [-> | [-> | ->]];
      unfold setDirection, tackAction, trimSail; cbn [localBoat];
      destruct lb0; (split; [reflexivity | intro H; try discriminate; reflexivity]).
  - unfold tackAction. destruct (localBoat st) as [lb|] eqn:El; [|rewrite El; reflexivity].
    simpl. rewrite with_local_twice.
    apply with_local_self. rewrite El. destruct lb as [? ? ? ? ? [] ? ? ? ?]; reflexivity.
  - intros u bc st0. unfold tackAction. simpl.
    destruct bc as [|[|[|[|bc]]]]; simpl; intros H; injection H; discriminate.
Qed.

(** [resetRace] puts the store back to its initial values whatever it held,
    and after it no [finishRace] call changes anything, since there is no
    boat left to find. *)
Theorem resetRace_clears :
  forall st calls,
  resetRace st = initialStore
  /\ finish_all (race (resetRace st)) calls = race (resetRace st).
Proof.
  intros st calls. split; [reflexivity|].
  simpl. induction calls as [|[b t] rest IH]; simpl; [reflexivity|].
  exact IH.
Qed.

End RaceStoreExtra.

Module CanvasExtFacts.
Import RaceStore Canvas Wind WindFacts SeasonStore CanvasExt.
Local Open Scope R_scope.

(** *** Reading a clock string back *)

(** Two decimal digits of [n] (for [0 <= n < 100]). *)
Definition two_digits (n : Z) : string :=
  String (ascii_of_nat (48 + Z.to_nat (n / 10)))
    (String (ascii_of_nat (48 + Z.to_nat (n mod 10))) EmptyString).

(** The number of milliseconds an [MM:SS.cc] string denotes. *)
Definition read_clock (s : string) : option Z :=
  match s with
  | String m1 (String m2 (String c (String s1 (String s2 (String d
      (String h1 (String h2 EmptyString))))))) =>
      if Ascii.eqb c ":" && Ascii.eqb d "." then
        match digit_value m1, digit_value m2, digit_value s1, digit_value s2,
              digit_value h1, digit_value h2 with
        | Some a, Some b, Some e, Some f, Some g, Some h =>
            Some ((10 * a + b) * 60000 + (10 * e + f) * 1000 + (10 * g + h) * 10)%Z
        | _, _, _, _, _, _ => None
        end
      else None
  | _ => None
  end.

Lemma pad_two_digits_all :
  forallb (fun k => String.eqb (pad_start2 (js_to_string (Z.of_nat k)))
                               (two_digits (Z.of_nat k)))
    (seq 0 100) = true.
Proof. vm_compute. reflexivity. Qed.

Lemma pad_two_digits n : (0 <= n < 100)%Z -> pad_start2 (js_to_string n) = two_digits n.
Proof.
  intros H. pose proof pad_two_digits_all as A.
  rewrite forallb_forall in A.
  specialize (A (Z.to_nat n)). rewrite Z2Nat.id in A by lia.
  apply String.eqb_eq, A, in_seq. lia.
Qed.

Lemma digit_value_all :
  forallb (fun k => match digit_value (ascii_of_nat (48 + k)) with
                    | Some d => Z.eqb d (Z.of_nat k) | None => false end)
    (seq 0 10) = true.
Proof. vm_compute. reflexivity. Qed.

Lemma digit_value_ascii d :
  (0 <= d < 10)%Z -> digit_value (ascii_of_nat (48 + Z.to_nat d)) = Some d.
Proof.
  intros H. pose proof digit_value_all as A. rewrite forallb_forall in A.
  specialize (A (Z.to_nat d)).
  destruct (digit_value _) as [v|]; [|discriminate A; apply in_seq; lia].
  apply Z.eqb_eq in A; [|apply in_seq; lia]. rewrite Z2Nat.id in A by lia.
  rewrite A. reflexivity.
Qed.

Lemma read_clock_two_digits a b c :
  (0 <= a < 100)%Z -> (0 <= b < 100)%Z -> (0 <= c < 100)%Z ->
  read_clock (two_digits a ++ ":" ++ two_digits b ++ "." ++ two_digits c)
  = Some (a * 60000 + b * 1000 + c * 10)%Z.
Proof.
  intros Ha Hb Hc.
  pose proof (Z.div_mod a 10 ltac:(lia)). pose proof (Z.mod_pos_bound a 10 ltac:(lia)).
  pose proof (Z.div_mod b 10 ltac:(lia)). pose proof (Z.mod_pos_bound b 10 ltac:(lia)).
  pose proof (Z.div_mod c 10 ltac:(lia)). pose proof (Z.mod_pos_bound c 10 ltac:(lia)).
  cbv beta iota delta [read_clock append two_digits Ascii.eqb Bool.eqb andb].
  rewrite !digit_value_ascii by lia.
  f_equal. lia.
Qed.

(** *** Remainder and steering *)

Lemma js_rem_nonneg x : 0 <= x -> 0 <= js_rem x 360 < 360.
Proof.
  intros H. unfold js_rem, trunc.
  destruct (Rle_dec 0 (x / 360)) as [_|n]; [|exfalso; apply n; unfold Rdiv; nra].
  destruct (base_Int_part (x / 360)) as [B1 B2].
  set (k := IZR (Int_part (x / 360))) in *.
  assert (E : x = 360 * (x / 360)) by (field; lra).
  split; nra.
Qed.

(** *** Efficiency bounds *)

Definition boost_ok (p : Puff) : Prop := 0.26 <= speedBoost p <= 0.4.

Lemma band_efficiency_range ra : 0 <= band_efficiency ra <= 1.
Proof.
  unfold band_efficiency.
  repeat match goal with |- context [if ?c then _ else _] => destruct c end; lra.
Qed.

Lemma shadow_penalty_range sh e : 0 <= e <= 1 -> 0 <= shadow_penalty sh e <= 1.
Proof.
  intros H. unfold shadow_penalty. destruct sh; [|exact H].
  unfold Rmax. destruct (Rle_dec 0.1 (e - 0.2)); lra.
Qed.

Lemma apply_puffs_range bx by' ra e B puffs :
  0 <= B -> Forall (fun p => 0 <= speedBoost p <= B) puffs ->
  e <= apply_puffs bx by' ra e puffs <= e + B.
Proof.
  intros HB Hp. induction Hp as [|p rest Hb _ IH]; simpl; [lra|].
  destruct (in_puff bx by' p); [|exact IH].
  destruct (Rle_dec 30 ra); lra.
Qed.

Lemma wind_efficiency_range wd rot bx by' sh B puffs :
  0 <= B -> Forall (fun p => 0 <= speedBoost p <= B) puffs ->
  0 <= wind_efficiency wd rot bx by' sh puffs <= 1 + B.
Proof.
  intros HB Hp. unfold wind_efficiency.
  pose proof (shadow_penalty_range sh _ (band_efficiency_range (relative_angle wd rot))).
  pose proof (apply_puffs_range bx by' (relative_angle wd rot)
               (shadow_penalty sh (band_efficiency (relative_angle wd rot))) B puffs HB Hp).
  lra.
Qed.

Lemma generate_puff_boost cfg_s bm cw r2 r3 r4 r5 r6 r7 :
  0 <= r6 < 1 ->
  boost_ok (fst (fst (generate_puff (seasonConfig cfg_s) bm cw r2 r3 r4 r5 r6 r7))).
Proof.
  intros H. unfold boost_ok, generate_puff; simpl.
  destruct cfg_s; simpl;
    repeat match goal with
    | |- context [if ?c then _ else _] => destruct c
    end; unfold Rmin;
    repeat match goal with
    | |- context [if Rle_dec ?a ?b then _ else _] => destruct (Rle_dec a b)
    end; simpl; lra.
Qed.

Lemma spawn_puffs_boost f ps :
  0 <= pf_r6 f < 1 -> Forall boost_ok ps -> Forall boost_ok (spawn_puffs f ps).
Proof.
  intros Hr Hps. unfold spawn_puffs.
  destruct (_ && _); [|exact Hps].
  apply Forall_app; split; [exact Hps|].
  constructor; [apply generate_puff_boost, Hr|constructor].
Qed.

Lemma drift_puffs_boost f ps :
  Forall boost_ok ps -> Forall boost_ok (drift_puffs f ps).
Proof.
  intros Hps. unfold drift_puffs.
  destruct (_ && _); [|exact Hps].
  apply Forall_forall. intros p Hp. apply filter_In in Hp as [Hp _].
  apply in_map_iff in Hp as [q [<- Hq]]. rewrite Forall_forall in Hps.
  exact (Hps q Hq).
Qed.

Lemma puff_frame_boost f ps :
  0 <= pf_r6 f < 1 -> Forall boost_ok ps -> Forall boost_ok (puff_frame f ps).
Proof.
  intros Hr Hps. apply drift_puffs_boost, spawn_puffs_boost; assumption.
Qed.

Lemma puff_run_boost ps frames :
  Forall boost_ok ps -> Forall (fun f => 0 <= pf_r6 f < 1) frames ->
  Forall boost_ok (puff_run ps frames).
Proof.
  intros Hps Hf. revert ps Hps.
  induction Hf as [|f rest Hr _ IH]; intros ps Hps; simpl; [exact Hps|].
  apply IH, puff_frame_boost; assumption.
Qed.

Lemma boost_ok_weaken puffs :
  Forall boost_ok puffs -> Forall (fun p => 0 <= speedBoost p <= 0.4) puffs.
Proof.
  apply Forall_impl. unfold boost_ok. intros p H; lra.
Qed.

(** *** Wind trend *)

Lemma wind_trend_step_range cfg d t :
  0 <= windShiftRange cfg ->
  - windShiftRange cfg <= fst (wind_trend_step cfg d t) <= windShiftRange cfg.
Proof.
  intros H. unfold wind_trend_step.
  destruct (Rle_dec _ _); simpl; [lra|].
  destruct (Rle_dec _ _); simpl; lra.
Qed.

Lemma wind_trend_step_trend cfg d t :
  (t = 1 \/ t = -1) -> snd (wind_trend_step cfg d t) = 1 \/ snd (wind_trend_step cfg d t) = -1.
Proof.
  intros H. unfold wind_trend_step.
  destruct (Rle_dec _ _); simpl; [right; reflexivity|].
  destruct (Rle_dec _ _); simpl; [left; reflexivity|exact H].
Qed.

Lemma seasonConfig_range_bound s :
  0 <= windShiftRange (seasonConfig s) <= 25.
Proof. destruct s; simpl; lra. Qed.

End CanvasExtFacts.

Module CanvasExtra.
Import RaceStore Canvas Wind WindFacts SeasonStore CanvasExt CanvasExtFacts.
Local Open Scope R_scope.

(** [cycleToNextSeason] never leaves the venue unchanged and never sets it
    to [undefined]; it visits the three venues in turn, comes back after
    three calls, and reaches every venue from every venue within two calls. *)
Theorem cycleToNextSeason_cycle :
  forall s,
  (exists s', cycleToNextSeason s = Some s' /\ s' <> s
     /\ (exists s'', cycleToNextSeason s' = Some s'' /\ cycleToNextSeason s'' = Some s))
  /\ (forall t, t = s \/ cycleToNextSeason s = Some t
                \/ exists u, cycleToNextSeason s = Some u /\ cycleToNextSeason u = Some t).
Proof.
  intros s. split.
  - destruct s; eexists; (split; [reflexivity|]); (split; [discriminate|]);
      eexists; split; reflexivity.
  - intros t. destruct s, t;
      first [left; reflexivity
            |right; left; reflexivity
            |right; right; eexists; split; reflexivity].
Qed.

(** [formatTime(ms)], for a whole number of milliseconds below 100 minutes,
    is an eight-character [MM:SS.cc] string that reads back as [ms] rounded
    down to hundredths of a second. *)
Theorem formatTime_round_trip :
  forall ms, (0 <= ms < 6000000)%Z ->
  read_clock (formatTime ms) = Some (ms - ms mod 10)%Z
  /\ String.length (formatTime ms) = 8%nat.
Proof.
  intros ms H.
  pose proof (Z.div_mod ms 1000 ltac:(lia)) as D1.
  pose proof (Z.mod_pos_bound ms 1000 ltac:(lia)) as B1.
  set (T := (ms / 1000)%Z) in *.
  pose proof (Z.div_mod T 60 ltac:(lia)) as D2.
  pose proof (Z.mod_pos_bound T 60 ltac:(lia)) as B2.
  pose proof (Z.div_mod (ms mod 1000) 10 ltac:(lia)) as D3.
  pose proof (Z.mod_pos_bound (ms mod 1000) 10 ltac:(lia)) as B3.
  pose proof (Z.div_mod ms 10 ltac:(lia)) as D4.
  pose proof (Z.mod_pos_bound ms 10 ltac:(lia)) as B4.
  assert (HT : (0 <= T)%Z) by lia.
  unfold formatTime. fold T.
  rewrite (Z.rem_mod_nonneg T 60), (Z.rem_mod_nonneg ms 1000) by lia.
  rewrite !pad_two_digits by lia.
  split.
  - rewrite read_clock_two_digits by lia. f_equal. lia.
  - reflexivity.
Qed.

Lemma formatTime_round_trip_witness :
  read_clock (formatTime 754321) = Some (754321 - 754321 mod 10)%Z
  /\ String.length (formatTime 754321) = 8%nat.
Proof. apply formatTime_round_trip. lia. Defined.

(** Steering: from a heading in [[0, 360)], a left or right turn of at most
    a full circle ([60 * deltaTime <= 360]) gives a heading in [[0, 360)],
    and a right turn does so from any non-negative heading and frame length;
    a left turn followed by a right turn of the same frame length (both
    arrows held) gives back the heading, and so does right then left; but a
    frame longer than [(rotation + 360) / 60] seconds makes a left turn
    produce a negative heading, since [deltaTime] is not capped. *)
Theorem steering_headings :
  forall r dt, 0 <= dt ->
  (0 <= r < 360 -> 60 * dt <= 360 ->
     0 <= steer_left r (60 * dt) < 360
     /\ steer_right (steer_left r (60 * dt)) (60 * dt) = r
     /\ steer_left (steer_right r (60 * dt)) (60 * dt) = r)
  /\ (0 <= r -> 0 <= steer_right r (60 * dt) < 360)
  /\ (0 <= r -> r + 360 < 60 * dt -> steer_left r (60 * dt) < 0).
Proof.
  intros r dt Hdt. split; [|split].
  - intros Hr Hs. unfold steer_left.
    destruct (Rlt_dec (r - 60 * dt) 0) as [Hn|Hn].
    + split; [lra|]. split.
      * unfold steer_right. rewrite js_rem_high by lra. ring.
      * unfold steer_right. destruct (Rlt_dec (r + 60 * dt) 360).
        -- rewrite js_rem_low by lra. destruct (Rlt_dec (r + 60 * dt - 60 * dt) 0); [lra|ring].
        -- rewrite js_rem_high by lra.
           destruct (Rlt_dec (r + 60 * dt - 360 - 60 * dt) 0); [ring|lra].
    + split; [lra|]. split.
      * unfold steer_right. rewrite js_rem_low by lra. ring.
      * unfold steer_right. destruct (Rlt_dec (r + 60 * dt) 360).
        -- rewrite js_rem_low by lra. destruct (Rlt_dec (r + 60 * dt - 60 * dt) 0); [lra|ring].
        -- rewrite js_rem_high by lra.
           destruct (Rlt_dec (r + 60 * dt - 360 - 60 * dt) 0); [ring|lra].
  - intros Hr. unfold steer_right. apply js_rem_nonneg. lra.
  - intros Hr Hbig. unfold steer_left.
    destruct (Rlt_dec (r - 60 * dt) 0); lra.
Qed.

Lemma steering_headings_witness :
  0 <= steer_left 10 (60 * 0.5) < 360
  /\ steer_left 10 (60 * 7) < 0.
Proof.
  split.
  - apply (proj1 (steering_headings 10 0.5 ltac:(lra))); lra.
  - apply (proj2 (proj2 (steering_headings 10 7 ltac:(lra)))); lra.
Defined.

(** A new puff at any venue, from draws in [[0, 1)]: its strength is in
    [[0.3, 1]] and its speed boost in [[0.26, 0.4]]; its width is in
    [[81, 324)], its height between half and nine tenths of the width; it
    starts just above the course ([y = -height]) with the venue's opacity
    and a curve factor in [[0.7, 1.3)]; and when the canvas is wide enough
    for it ([2 * boundaryMargin + width <= canvas.width]) it lies between the
    two side margins. *)
Theorem generate_puff_ranges :
  forall s bm cw r2 r3 r4 r5 r6 r7,
  0 <= r2 < 1 -> 0 <= r3 < 1 -> 0 <= r4 < 1 -> 0 <= r6 < 1 -> 0 <= r7 < 1 ->
  let '(p, strength, curve) := generate_puff (seasonConfig s) bm cw r2 r3 r4 r5 r6 r7 in
  0.3 <= strength <= 1
  /\ 0.26 <= speedBoost p <= 0.4
  /\ 81 <= puff_width p < 324
  /\ puff_width p * 0.5 <= puff_height p < puff_width p * 0.9
  /\ puff_y p = - puff_height p
  /\ opacity p = puffOpacity (seasonConfig s)
  /\ 0.7 <= curve < 1.3
  /\ (2 * bm + puff_width p <= cw ->
      bm <= puff_x p - puff_width p / 2 /\ puff_x p + puff_width p / 2 <= cw - bm).
Proof.
  intros s bm cw r2 r3 r4 r5 r6 r7 H2 H3 H4 H6 H7.
  pose proof (generate_puff_boost s bm cw r2 r3 r4 r5 r6 r7 H6) as Hb.
  unfold boost_ok, generate_puff in *. simpl in *.
  assert (Hsz : 0.9 <= puffSize (seasonConfig s) <= 1.2) by (destruct s; simpl; lra).
  set (w := (r2 * 100 + 50) * 1.8 * puffSize (seasonConfig s)) in *.
  assert (Hw : 81 <= w < 324) by (subst w; nra).
  split; [|split; [exact Hb|split; [exact Hw|split; [|split; [reflexivity|split;
    [reflexivity|split; [lra|]]]]]]].
  - destruct s; simpl;
      repeat match goal with
      | |- context [if ?c then _ else _] => destruct c
      end; unfold Rmin;
      repeat match goal with
      | |- context [if Rle_dec ?a ?b then _ else _] => destruct (Rle_dec a b)
      end; simpl; lra.
  - split; nra.
  - intros Hc. split; nra.
Qed.

Lemma generate_puff_ranges_witness :
  let '(p, strength, _) :=
    generate_puff (seasonConfig sanfrancisco) 30 1000 0.5 0.5 0.5 0.1 0.5 0.5 in
  0.3 <= strength <= 1 /\ 0.26 <= speedBoost p <= 0.4.
Proof.
  pose proof (generate_puff_ranges sanfrancisco 30 1000 0.5 0.5 0.5 0.1 0.5 0.5
    ltac:(lra) ltac:(lra) ltac:(lra) ltac:(lra) ltac:(lra)) as H.
  destruct (generate_puff _ _ _ _ _ _ _ _ _) as [[p strength] curve].
  destruct H as [Hs [Hb _]]. split; assumption.
Defined.

(** The [windPuffs] state, from its initial [[]] through any frames (any
    venues, phases, pauses, frame lengths and canvas sizes, with the
    strength draw in [[0, 1)]), only holds puffs whose speed boost is in
    [[0.26, 0.4]]; so the maximum speed [50 * windEfficiency] of a boat is
    always between 0 and [50 * 1.4 = 70], whatever its heading, position
    and wind shadow. *)
Theorem puffs_reachable_bounds :
  forall frames,
  Forall (fun f => 0 <= pf_r6 f < 1) frames ->
  let ps := puff_run [] frames in
  Forall boost_ok ps
  /\ (forall wd rot bx by' sh, 0 <= max_speed wd rot bx by' sh ps <= 70).
Proof.
  intros frames Hf ps.
  assert (Hps : Forall boost_ok ps) by (apply puff_run_boost; [constructor|exact Hf]).
  split; [exact Hps|].
  intros wd rot bx by' sh. unfold max_speed.
  pose proof (wind_efficiency_range wd rot bx by' sh 0.4 ps ltac:(lra)
                (boost_ok_weaken ps Hps)).
  lra.
Qed.

Lemma puffs_reachable_bounds_witness :
  Forall boost_ok (puff_run [] [mkPuffFrame sanfrancisco true false 30 1000 800
                                 0.016 0.01 0.5 0.5 0.5 0.1 0.5 0.5]).
Proof.
  apply (puffs_reachable_bounds [mkPuffFrame sanfrancisco true false 30 1000 800
                                 0.016 0.01 0.5 0.5 0.5 0.1 0.5 0.5]).
  repeat constructor; simpl; lra.
Defined.

(** One speed update of a boat keeps its speed in [[0, 70]]: sailing
    ([Math.min(maxSpeed, prev.speed + acceleration * windEfficiency)]) with
    the puffs the game can hold, and luffing
    ([Math.max(0, prev.speed - acceleration * 3)]), for any non-negative
    frame length. *)
Theorem speed_step_bounds :
  forall frames wd rot bx by' sh prev dt,
  Forall (fun f => 0 <= pf_r6 f < 1) frames ->
  0 <= prev <= 70 -> 0 <= dt ->
  let ps := puff_run [] frames in
  0 <= next_speed wd rot bx by' sh ps prev dt <= 70
  /\ 0 <= luff_speed prev dt <= 70.
Proof.
  intros frames wd rot bx by' sh prev dt Hf Hp Hdt ps.
  assert (Hps : Forall boost_ok ps) by (apply puff_run_boost; [constructor|exact Hf]).
  pose proof (wind_efficiency_range wd rot bx by' sh 0.4 ps ltac:(lra)
                (boost_ok_weaken ps Hps)) as He.
  set (e := wind_efficiency wd rot bx by' sh ps) in *.
  split.
  - unfold next_speed. fold e. unfold Rmin.
    destruct (Rle_dec (50 * e) (prev + 50 * dt * e)); nra.
  - unfold luff_speed, Rmax. destruct (Rle_dec 0 (prev - 50 * dt * 3)); lra.
Qed.

Lemma speed_step_bounds_witness :
  0 <= next_speed 0 90 100 100 false (puff_run [] []) 60 0.5 <= 70
  /\ 0 <= luff_speed 60 0.5 <= 70.
Proof.
  apply (speed_step_bounds [] 0 90 100 100 false 60 0.5); [constructor|lra|lra].
Defined.

Lemma wind_frame_inv f st :
  -25 <= fst st <= 25 -> (snd st = 1 \/ snd st = -1) ->
  -25 <= fst (wind_frame f st) <= 25
  /\ (snd (wind_frame f st) = 1 \/ snd (wind_frame f st) = -1).
Proof.
  intros Hd Ht. unfold wind_frame.
  destruct (_ && _); [|split; assumption].
  pose proof (seasonConfig_range_bound (tf_season f)).
  pose proof (wind_trend_step_range (seasonConfig (tf_season f)) (fst st) (snd st)
                ltac:(lra)).
  split; [lra|apply wind_trend_step_trend, Ht].
Qed.

(** The wind-trend code, from [windDirection = 0] and
    [windTrendRef.current = 1], through any frames (the venue may change
    between frames), keeps the direction within [[-25, 25]] (25 being the
    widest [windShiftRange]) and the trend at [1] or [-1]; and each update
    it makes lands within the current venue's [[-windShiftRange, windShiftRange]],
    whatever direction and trend it starts from. *)
Theorem wind_trend_bounded :
  forall frames,
  let st := wind_run (0, 1) frames in
  (-25 <= fst st <= 25 /\ (snd st = 1 \/ snd st = -1))
  /\ (forall s d t,
        - windShiftRange (seasonConfig s) <= fst (wind_trend_step (seasonConfig s) d t)
        <= windShiftRange (seasonConfig s)).
Proof.
  intros frames st. split.
  - subst st. assert (H0 : -25 <= fst (0, 1) <= 25 /\ (snd (0, 1) = 1 \/ snd (0, 1) = -1))
      by (simpl; split; [lra|left; reflexivity]).
    revert H0. generalize (0, 1). induction frames as [|f rest IH]; intros st0 [Hd Ht];
      simpl; [split; assumption|].
    apply IH, wind_frame_inv; assumption.
  - intros s d t. apply wind_trend_step_range.
    pose proof (seasonConfig_range_bound s). lra.
Qed.

End CanvasExtra.

(* ------------------------------------------------------------------ *)
Module CollisionFacts.
Import Canvas CollisionTick.
Local Open Scope R_scope.

Lemma adj_set_same a k v : adj_set a k v k = v.
Proof. unfold adj_set; now rewrite Nat.eqb_refl. Qed.

Lemma adj_set_other a k v k' : k' <> k -> adj_set a k v k' = a k'.
Proof. intro H; unfold adj_set; apply Nat.eqb_neq in H; now rewrite H. Qed.

Lemma resolve_pair_fields r b1 b2 n1 n2 :
  resolve_pair r b1 b2 = Some (n1, n2) ->
  c_id n1 = c_id b1 /\ c_id n2 = c_id b2
  /\ c_speed n1 = c_speed b1 * 0.95 /\ c_speed n2 = c_speed b2 * 0.95.
Proof.
  unfold resolve_pair; destruct (Rlt_dec _ _); intro H; inversion H; subst; cbn; tauto.
Qed.

(** The variables of boat [k] are either untouched or a collision's
    values, whose speed is the snapshot speed times 0.95. *)
Definition speed_inv (bt : nat -> BoatTick) (a : nat -> Adj) : Prop :=
  forall k, a k = adj_init bt k
            \/ (needs (a k) = true /\ a_speed (a k) = snap_speed (bt k) * 0.95).

Lemma speed_inv_init bt : speed_inv bt (adj_init bt).
Proof. intro k; now left. Qed.

Lemma speed_inv_set bt a k v :
  speed_inv bt a -> needs v = true -> a_speed v = snap_speed (bt k) * 0.95 ->
  speed_inv bt (adj_set a k v).
Proof.
  intros H Hn Hs k'. destruct (Nat.eq_dec k' k) as [->|Hne].
  - rewrite adj_set_same; now right.
  - rewrite adj_set_other by exact Hne; apply H.
Qed.

Lemma pair_step_inv r bt a ij : speed_inv bt a -> speed_inv bt (pair_step r bt a ij).
Proof.
  intro H; unfold pair_step.
  destruct (resolve_pair _ _ _) as [[n1 n2]|] eqn:E; [|exact H].
  destruct (resolve_pair_fields _ _ _ _ _ E) as (I1 & I2 & S1 & S2).
  cbn [collision_info c_id c_speed] in *.
  apply speed_inv_set; [apply speed_inv_set| |]; cbn; auto.
  - now rewrite S1, I1.
  - now rewrite S2, I2.
Qed.

Lemma pair_loop_inv r bt bc : speed_inv bt (pair_loop r bt bc (adj_init bt)).
Proof.
  unfold pair_loop; destruct (2 <=? bc)%nat; [|apply speed_inv_init].
  generalize (adj_init bt) (speed_inv_init bt).
  induction (pairs (active_count bc)) as [|p ps IH]; intros a Ha; cbn; auto.
  apply IH, pair_step_inv, Ha.
Qed.

Lemma mark_step_inv r bt k a m : speed_inv bt a -> speed_inv bt (mark_step r bt k a m).
Proof.
  intro H; unfold mark_step; destruct (Rlt_dec _ _); [|exact H].
  apply speed_inv_set; cbn; auto.
Qed.

Lemma mark_boat_inv r bt marks bc k a :
  speed_inv bt a -> speed_inv bt (mark_boat r bt marks bc k a).
Proof.
  unfold mark_boat; destruct (marks_gate bc k); [|auto].
  revert a; induction marks as [|m ms IH]; intros a Ha; cbn; auto.
  apply IH, mark_step_inv, Ha.
Qed.

Lemma mark_loop_inv r bt marks bc a :
  speed_inv bt a -> speed_inv bt (mark_loop r bt marks bc a).
Proof.
  intro H; unfold mark_loop; cbn [fold_left].
  repeat apply mark_boat_inv; exact H.
Qed.

(** Mark checks of boat [k] only touch boat [k]'s variables ... *)
Lemma mark_boat_other r bt marks bc k a k' :
  k' <> k -> mark_boat r bt marks bc k a k' = a k'.
Proof.
  intro Hne; unfold mark_boat; destruct (marks_gate bc k); [|reflexivity].
  revert a; induction marks as [|m ms IH]; intro a; cbn; [reflexivity|].
  rewrite IH; unfold mark_step; destruct (Rlt_dec _ _); [|reflexivity].
  now apply adj_set_other.
Qed.

(** ... and read them only at index [k]. *)
Lemma mark_boat_local r bt marks bc k a a' :
  a k = a' k -> mark_boat r bt marks bc k a k = mark_boat r bt marks bc k a' k.
Proof.
  unfold mark_boat; destruct (marks_gate bc k); [|auto].
  revert a a'; induction marks as [|m ms IH]; intros a a' H; cbn; auto.
  apply IH; unfold mark_step; destruct (Rlt_dec _ _); [|exact H].
  now rewrite !adj_set_same.
Qed.

Lemma mark_loop_at r bt marks bc a k :
  (1 <= k <= 4)%nat -> mark_loop r bt marks bc a k = mark_boat r bt marks bc k a k.
Proof.
  intro Hk; unfold mark_loop; cbn [fold_left].
  assert (k = 1 \/ k = 2 \/ k = 3 \/ k = 4)%nat as [-> | [-> | [-> | ->]]] by lia.
  - rewrite !mark_boat_other by lia; reflexivity.
  - rewrite !mark_boat_other by lia; apply mark_boat_local.
    apply mark_boat_other; lia.
  - rewrite mark_boat_other by lia; apply mark_boat_local.
    rewrite !mark_boat_other by lia; reflexivity.
  - apply mark_boat_local; rewrite !mark_boat_other by lia; reflexivity.
Qed.

Lemma mark_loop_outside r bt marks bc a k :
  (4 < k)%nat -> mark_loop r bt marks bc a k = a k.
Proof.
  intro Hk; unfold mark_loop; cbn [fold_left].
  rewrite !mark_boat_other by lia; reflexivity.
Qed.

Lemma mark_boat_ungated r bt marks bc k a :
  marks_gate bc k = false -> mark_boat r bt marks bc k a = a.
Proof. unfold mark_boat; intros ->; reflexivity. Qed.

Lemma mark_boat_nil r bt bc k a : mark_boat r bt [] bc k a = a.
Proof. unfold mark_boat; destruct (marks_gate bc k); reflexivity. Qed.

Lemma mark_boat_last r bt marks m bc k a :
  marks_gate bc k = true ->
  mark_boat r bt (marks ++ [m]) bc k a = mark_step r bt k (mark_boat r bt marks bc k a) m.
Proof. unfold mark_boat; intros ->; now rewrite fold_left_app. Qed.

Lemma mark_boat_far r bt marks bc k a :
  Forall (fun m => r + m_radius m <= dist (cand_x (bt k)) (cand_y (bt k)) (m_x m) (m_y m)) marks ->
  mark_boat r bt marks bc k a = a.
Proof.
  unfold mark_boat; destruct (marks_gate bc k); [|auto].
  intro H; revert a; induction H as [|m ms Hm _ IH]; intro a; cbn; auto.
  replace (mark_step r bt k a m) with a; [apply IH|].
  unfold mark_step; destruct (Rlt_dec _ _); [lra|reflexivity].
Qed.

Lemma dist_line x0 y0 d : 0 <= d -> dist x0 y0 (x0 + d) y0 = d.
Proof.
  intro H; unfold dist.
  replace ((x0 - (x0 + d)) ^ 2 + (y0 - y0) ^ 2) with (d * d) by ring.
  now apply sqrt_square.
Qed.

Lemma atan2_pos_axis d : 0 < d -> atan2 0 d = 0.
Proof.
  intro H; unfold atan2; destruct (Rlt_dec 0 d); [|lra].
  unfold Rdiv; rewrite Rmult_0_l; exact atan_0.
Qed.

End CollisionFacts.

Module CollisionFacts2.
Import Canvas GeometryFacts CollisionTick CollisionFacts.
Local Open Scope R_scope.

Lemma resolve_line r i1 i2 x0 y0 d s1 s2 :
  0 <= d < r * 2 ->
  resolve_pair r (mkCollision i1 x0 y0 s1) (mkCollision i2 (x0 + d) y0 s2)
  = Some (mkCollision i1 (x0 - Rmax ((r * 2 - d) * 0.75) (r * 0.25)) y0 (s1 * 0.95),
          mkCollision i2 (x0 + d + Rmax ((r * 2 - d) * 0.75) (r * 0.25)) y0 (s2 * 0.95)).
Proof.
  intros [H0 H1]. unfold resolve_pair; cbn [c_x c_y c_id c_speed].
  rewrite dist_line by exact H0.
  destruct (Rlt_dec d (r * 2)) as [_|]; [|lra].
  replace (y0 - y0) with 0 by ring. replace (x0 + d - x0) with d by ring.
  destruct (Req_dec d 0) as [->|Hd].
  - unfold atan2. destruct (Rlt_dec 0 0); [lra|]. destruct (Rlt_dec 0 0); [lra|].
    destruct (Rlt_dec 0 0); [lra|]. rewrite cos_0, sin_0.
    do 3 f_equal; ring.
  - rewrite atan2_pos_axis by lra. rewrite cos_0, sin_0.
    do 3 f_equal; ring.
Qed.

Lemma resolve_far r b1 b2 :
  r * 2 <= dist (c_x b1) (c_y b1) (c_x b2) (c_y b2) -> resolve_pair r b1 b2 = None.
Proof.
  intro H; unfold resolve_pair; destruct (Rlt_dec _ _); [lra|reflexivity].
Qed.

(** Offsetting a point by [push] along the direction away from a centre
    puts it at distance [d + push] from that centre. *)
Lemma push_away_dist cx cy mx my push :
  let d := dist cx cy mx my in
  0 <= d + push ->
  dist (cx + cos (atan2 (cy - my) (cx - mx)) * push)
       (cy + sin (atan2 (cy - my) (cx - mx)) * push) mx my = d + push.
Proof.
  intros d Hp.
  destruct (atan2_polar (cx - mx) (cy - my)) as [Hc Hs].
  set (th := atan2 (cy - my) (cx - mx)) in *.
  assert (Ed : sqrt ((cx - mx) ^ 2 + (cy - my) ^ 2) = d) by reflexivity.
  rewrite Ed in Hc, Hs.
  assert (Hcs : cos th ^ 2 + sin th ^ 2 = 1).
  { rewrite <- !Rsqr_pow2, Rplus_comm; apply sin2_cos2. }
  unfold dist.
  replace ((cx + cos th * push - mx) ^ 2 + (cy + sin th * push - my) ^ 2)
    with ((cos th * d + cos th * push) ^ 2 + (sin th * d + sin th * push) ^ 2)
    by (rewrite Hc, Hs; ring).
  replace ((cos th * d + cos th * push) ^ 2 + (sin th * d + sin th * push) ^ 2)
    with ((cos th ^ 2 + sin th ^ 2) * ((d + push) * (d + push))) by ring.
  rewrite Hcs, Rmult_1_l. now apply sqrt_square.
Qed.

(** Three boats abreast at spacing [d]: the committed updates of boats 1
    and 2. *)
Lemma three_abreast_commits r bt marks x0 y0 d :
  r <= d < r * 2 ->
  cand_x (bt 1%nat) = x0 -> cand_y (bt 1%nat) = y0 ->
  cand_x (bt 2%nat) = x0 + d -> cand_y (bt 2%nat) = y0 ->
  cand_x (bt 3%nat) = x0 + 2 * d -> cand_y (bt 3%nat) = y0 ->
  Forall (fun m => r + m_radius m <= dist x0 y0 (m_x m) (m_y m)) marks ->
  let p := Rmax ((r * 2 - d) * 0.75) (r * 0.25) in
  collision_tick r bt marks 3 1 = Some (x0 - p, y0, snap_speed (bt 1%nat) * 0.95)
  /\ collision_tick r bt marks 3 2 = Some (x0 + d - p, y0, snap_speed (bt 2%nat) * 0.95).
Proof.
  intros Hd Hx1 Hy1 Hx2 Hy2 Hx3 Hy3 Hm p.
  assert (Hpl : pair_loop r bt 3 (adj_init bt)
    = pair_step r bt (pair_step r bt (pair_step r bt (adj_init bt) (1, 2)%nat) (1, 3)%nat) (2, 3)%nat)
    by reflexivity.
  assert (E12 : resolve_pair r (collision_info bt 1) (collision_info bt 2)
    = Some (mkCollision 1 (x0 - p) y0 (snap_speed (bt 1%nat) * 0.95),
            mkCollision 2 (x0 + d + p) y0 (snap_speed (bt 2%nat) * 0.95))).
  { unfold collision_info; rewrite Hx1, Hy1, Hx2, Hy2. apply resolve_line; lra. }
  assert (E13 : resolve_pair r (collision_info bt 1) (collision_info bt 3) = None).
  { apply resolve_far. unfold collision_info; cbn [c_x c_y].
    rewrite Hx1, Hy1, Hx3, Hy3, dist_line by lra. lra. }
  assert (E23 : resolve_pair r (collision_info bt 2) (collision_info bt 3)
    = Some (mkCollision 2 (x0 + d - p) y0 (snap_speed (bt 2%nat) * 0.95),
            mkCollision 3 (x0 + d + d + p) y0 (snap_speed (bt 3%nat) * 0.95))).
  { unfold collision_info; rewrite Hx2, Hy2, Hx3, Hy3.
    replace (x0 + 2 * d) with (x0 + d + d) by ring. apply resolve_line; lra. }
  assert (Hpl1 : pair_loop r bt 3 (adj_init bt) 1%nat
                 = mkAdj (x0 - p) y0 (snap_speed (bt 1%nat) * 0.95) true).
  { rewrite Hpl. unfold pair_step at 1 2 3; cbn [fst snd].
    rewrite E12, E13, E23; cbn [c_id c_x c_y c_speed]. reflexivity. }
  assert (Hpl2 : pair_loop r bt 3 (adj_init bt) 2%nat
                 = mkAdj (x0 + d - p) y0 (snap_speed (bt 2%nat) * 0.95) true).
  { rewrite Hpl. unfold pair_step at 1 2 3; cbn [fst snd].
    rewrite E12, E13, E23; cbn [c_id c_x c_y c_speed]. reflexivity. }
  split.
  - unfold collision_tick; cbn [Nat.eqb orb].
    rewrite mark_loop_at by lia. rewrite mark_boat_far by (rewrite Hx1, Hy1; exact Hm).
    rewrite Hpl1. reflexivity.
  - unfold collision_tick; cbn [Nat.eqb orb Nat.leb].
    rewrite mark_loop_at by lia. rewrite mark_boat_ungated by reflexivity.
    rewrite Hpl2. reflexivity.
Qed.

End CollisionFacts2.

Module CollisionExtra.
Import Canvas CollisionTick CollisionFacts CollisionFacts2.
Local Open Scope R_scope.

(** The speed a boat's collision pass commits is either the speed its
    queued updates produced (no contact) or its frame-start speed times
    0.95: contacts with several boats and marks in one tick never compound
    the 0.95 reduction. *)
Theorem collision_tick_speed r bt marks bc k x y s :
  collision_tick r bt marks bc k = Some (x, y, s) ->
  s = queued_speed (bt k) \/ s = snap_speed (bt k) * 0.95.
Proof.
  unfold collision_tick.
  destruct (Nat.eqb k 1 || (k <=? bc)%nat); [|discriminate].
  pose proof (mark_loop_inv r bt marks bc _ (pair_loop_inv r bt bc) k) as Hinv.
  destruct (needs _) eqn:En; intro H; inversion H; subst; [|now left].
  destruct Hinv as [Ha|[_ Hs]]; [|now right].
  rewrite Ha in En; discriminate.
Qed.

Definition tick_boats (k : nat) : BoatTick :=
  match k with
  | 1%nat => mkBoatTick 0 0 4 3
  | 2%nat => mkBoatTick 15 0 4 3
  | 3%nat => mkBoatTick 30 0 4 3
  | _ => mkBoatTick 100 100 0 0
  end.

(** Boat 2 between boats 1 and 3 touches both of them: it is committed at
    one 0.95 reduction of its frame-start speed 4, not two. *)
Lemma collision_tick_speed_witness :
  collision_tick 10 tick_boats [] 3 2
    = Some (0 + 15 - Rmax ((10 * 2 - 15) * 0.75) (10 * 0.25), 0, 4 * 0.95)
  /\ (4 * 0.95 = queued_speed (tick_boats 2) \/ 4 * 0.95 = snap_speed (tick_boats 2) * 0.95)
  /\ 4 * 0.95 <> 4 * 0.95 * 0.95.
Proof.
  assert (E : collision_tick 10 tick_boats [] 3 2
    = Some (0 + 15 - Rmax ((10 * 2 - 15) * 0.75) (10 * 0.25), 0, 4 * 0.95)).
  { apply (three_abreast_commits 10 tick_boats [] 0 0 15); cbn; try lra.
    constructor. }
  split; [exact E | split; [|lra]].
  apply (collision_tick_speed 10 tick_boats [] 3 2
           (0 + 15 - Rmax ((10 * 2 - 15) * 0.75) (10 * 0.25)) 0 (4 * 0.95)).
  exact E.
Defined.

(** With three or four boats, boat 2's marks are never checked: whatever
    the marks, boat 2's committed update is the one it gets with no marks
    at all (the check sits under [if (boatCount === 2)]). *)
Theorem boat2_ignores_marks r bt marks bc :
  (3 <= bc)%nat -> collision_tick r bt marks bc 2 = collision_tick r bt [] bc 2.
Proof.
  intro Hbc. unfold collision_tick.
  rewrite !mark_loop_at by lia.
  assert (Hg : marks_gate bc 2 = false) by (cbn; apply Nat.eqb_neq; lia).
  rewrite !mark_boat_ungated by exact Hg. reflexivity.
Qed.

Lemma boat2_ignores_marks_witness :
  (3 <= 3)%nat
  /\ collision_tick 10 tick_boats [mkMark 15 0 8] 3 2 = collision_tick 10 tick_boats [] 3 2.
Proof. split; [lia|]. apply (boat2_ignores_marks 10 tick_boats [mkMark 15 0 8] 3); lia. Defined.

Lemma marks_gate_committed bc k :
  (1 <= k <= 4)%nat -> marks_gate bc k = true -> (Nat.eqb k 1 || (k <=? bc)%nat) = true.
Proof.
  intros Hk Hg.
  assert (k = 1 \/ k = 2 \/ k = 3 \/ k = 4)%nat as [-> | [-> | [-> | ->]]] by lia;
    cbn in Hg |- *;
    first [ reflexivity | now rewrite Hg
          | apply Nat.eqb_eq in Hg; subst; reflexivity ].
Qed.

Lemma tick_last_mark r bt marks m bc k :
  (1 <= k <= 4)%nat -> marks_gate bc k = true ->
  dist (cand_x (bt k)) (cand_y (bt k)) (m_x m) (m_y m) < r + m_radius m ->
  collision_tick r bt (marks ++ [m]) bc k
  = Some (cand_x (bt k)
            + cos (atan2 (cand_y (bt k) - m_y m) (cand_x (bt k) - m_x m))
              * Rmax ((r + m_radius m - dist (cand_x (bt k)) (cand_y (bt k)) (m_x m) (m_y m)) * 0.75)
                     (r * 0.25),
          cand_y (bt k)
            + sin (atan2 (cand_y (bt k) - m_y m) (cand_x (bt k) - m_x m))
              * Rmax ((r + m_radius m - dist (cand_x (bt k)) (cand_y (bt k)) (m_x m) (m_y m)) * 0.75)
                     (r * 0.25),
          snap_speed (bt k) * 0.95).
Proof.
  intros Hk Hg Hd. unfold collision_tick.
  rewrite (marks_gate_committed bc k Hk Hg).
  rewrite mark_loop_at by exact Hk. rewrite mark_boat_last by exact Hg.
  cbv zeta; unfold mark_step. destruct (Rlt_dec _ _) as [_|]; [|lra].
  rewrite !adj_set_same. reflexivity.
Qed.

(** A boat whose marks are checked and whose candidate position lies
    inside the last mark of the list it overlaps is committed at that
    mark's push: away from the mark's centre by
    [max((boatRadius + radius - d) * 0.75, boatRadius * 0.25)], at 0.95
    of its frame-start speed, whatever the earlier marks and boat
    contacts did. *)
Theorem last_mark_decides r bt marks m bc k :
  (1 <= k <= 4)%nat -> marks_gate bc k = true ->
  dist (cand_x (bt k)) (cand_y (bt k)) (m_x m) (m_y m) < r + m_radius m ->
  collision_tick r bt (marks ++ [m]) bc k
  = Some (cand_x (bt k)
            + cos (atan2 (cand_y (bt k) - m_y m) (cand_x (bt k) - m_x m))
              * Rmax ((r + m_radius m - dist (cand_x (bt k)) (cand_y (bt k)) (m_x m) (m_y m)) * 0.75)
                     (r * 0.25),
          cand_y (bt k)
            + sin (atan2 (cand_y (bt k) - m_y m) (cand_x (bt k) - m_x m))
              * Rmax ((r + m_radius m - dist (cand_x (bt k)) (cand_y (bt k)) (m_x m) (m_y m)) * 0.75)
                     (r * 0.25),
          snap_speed (bt k) * 0.95).
Proof. apply tick_last_mark. Qed.

Lemma dist_self x y : dist x y x y = 0.
Proof. unfold dist. replace ((x - x) ^ 2 + (y - y) ^ 2) with 0 by ring. exact sqrt_0. Qed.

Lemma last_mark_decides_witness :
  ((1 <= 3 <= 4)%nat /\ marks_gate 3 3 = true /\ dist 30 0 30 0 < 10 + 8)
  /\ collision_tick 10 tick_boats ([mkMark 0 0 8] ++ [mkMark 30 0 8]) 3 3
     = Some (30 + cos (atan2 (0 - 0) (30 - 30)) * Rmax ((10 + 8 - dist 30 0 30 0) * 0.75) (10 * 0.25),
             0 + sin (atan2 (0 - 0) (30 - 30)) * Rmax ((10 + 8 - dist 30 0 30 0) * 0.75) (10 * 0.25),
             4 * 0.95).
Proof.
  assert (H : dist 30 0 30 0 < 10 + 8) by (rewrite dist_self; lra).
  split; [split; [lia | split; [reflexivity | exact H]]|].
  apply (last_mark_decides 10 tick_boats [mkMark 0 0 8] (mkMark 30 0 8) 3 3);
    [lia | reflexivity | exact H].
Defined.

(** One mark push puts the boat at distance [d + pushDistance] from the
    mark's centre, [d] being its candidate distance; it is clear of the
    mark ([boatRadius + radius] or more) exactly when
    [radius + 0.75 * boatRadius <= d]: a boat deeper into a mark is left
    overlapping it after the tick. *)
Theorem mark_push_clearance r bt marks m bc k :
  0 < r -> (1 <= k <= 4)%nat -> marks_gate bc k = true ->
  let d := dist (cand_x (bt k)) (cand_y (bt k)) (m_x m) (m_y m) in
  d < r + m_radius m ->
  exists x y,
    collision_tick r bt (marks ++ [m]) bc k = Some (x, y, snap_speed (bt k) * 0.95)
    /\ dist x y (m_x m) (m_y m) = d + Rmax ((r + m_radius m - d) * 0.75) (r * 0.25)
    /\ (r + m_radius m <= dist x y (m_x m) (m_y m) <-> m_radius m + 0.75 * r <= d).
Proof.
  intros Hr Hk Hg d Hd.
  rewrite (tick_last_mark r bt marks m bc k Hk Hg Hd).
  eexists _, _; split; [reflexivity|].
  assert (Hd0 : 0 <= d) by apply sqrt_pos.
  assert (HB : r * 0.25 <= Rmax ((r + m_radius m - d) * 0.75) (r * 0.25)) by apply Rmax_r.
  rewrite push_away_dist by (fold d; lra). fold d. split; [reflexivity|].
  unfold Rmax; destruct (Rle_dec _ _); lra.
Qed.

Lemma mark_push_clearance_witness :
  (0 < 10 /\ (1 <= 3 <= 4)%nat /\ marks_gate 3 3 = true /\ dist 30 0 30 0 < 10 + 8)
  /\ exists x y,
    collision_tick 10 tick_boats ([] ++ [mkMark 30 0 8]) 3 3 = Some (x, y, 4 * 0.95)
    /\ dist x y 30 0 = dist 30 0 30 0 + Rmax ((10 + 8 - dist 30 0 30 0) * 0.75) (10 * 0.25)
    /\ (10 + 8 <= dist x y 30 0 <-> 8 + 0.75 * 10 <= dist 30 0 30 0).
Proof.
  assert (H : dist 30 0 30 0 < 10 + 8) by (rewrite dist_self; lra).
  split; [split; [lra | split; [lia | split; [reflexivity | exact H]]]|].
  apply (mark_push_clearance 10 tick_boats [] (mkMark 30 0 8) 3 3);
    [lra | lia | reflexivity | exact H].
Defined.

(** Three boats abreast at spacing [d], [boatRadius <= d < 2 * boatRadius],
    with no mark in reach of boat 1: boat 2 touches both neighbours, and
    the later pair overwrites its push from the first, so boats 1 and 2
    are committed at the same spacing [d] and still overlap after the
    tick. *)
Theorem three_abreast_still_overlap r bt marks x0 y0 d :
  r <= d < r * 2 ->
  cand_x (bt 1%nat) = x0 -> cand_y (bt 1%nat) = y0 ->
  cand_x (bt 2%nat) = x0 + d -> cand_y (bt 2%nat) = y0 ->
  cand_x (bt 3%nat) = x0 + 2 * d -> cand_y (bt 3%nat) = y0 ->
  Forall (fun m => r + m_radius m <= dist x0 y0 (m_x m) (m_y m)) marks ->
  let p := Rmax ((r * 2 - d) * 0.75) (r * 0.25) in
  collision_tick r bt marks 3 1 = Some (x0 - p, y0, snap_speed (bt 1%nat) * 0.95)
  /\ collision_tick r bt marks 3 2 = Some (x0 + d - p, y0, snap_speed (bt 2%nat) * 0.95)
  /\ dist (x0 - p) y0 (x0 + d - p) y0 < r * 2.
Proof.
  intros Hd Hx1 Hy1 Hx2 Hy2 Hx3 Hy3 Hm p.
  destruct (three_abreast_commits r bt marks x0 y0 d Hd Hx1 Hy1 Hx2 Hy2 Hx3 Hy3 Hm)
    as [H1 H2].
  split; [exact H1 | split; [exact H2|]].
  replace (x0 + d - p) with (x0 - p + d) by ring. rewrite dist_line by lra. lra.
Qed.

Lemma three_abreast_still_overlap_witness :
  (10 <= 15 < 10 * 2 /\ cand_x (tick_boats 1%nat) = 0 /\ cand_y (tick_boats 1%nat) = 0
   /\ cand_x (tick_boats 2%nat) = 0 + 15 /\ cand_y (tick_boats 2%nat) = 0
   /\ cand_x (tick_boats 3%nat) = 0 + 2 * 15 /\ cand_y (tick_boats 3%nat) = 0)
  /\ collision_tick 10 tick_boats [] 3 1
     = Some (0 - Rmax ((10 * 2 - 15) * 0.75) (10 * 0.25), 0, snap_speed (tick_boats 1%nat) * 0.95)
  /\ collision_tick 10 tick_boats [] 3 2
     = Some (0 + 15 - Rmax ((10 * 2 - 15) * 0.75) (10 * 0.25), 0, snap_speed (tick_boats 2%nat) * 0.95)
  /\ dist (0 - Rmax ((10 * 2 - 15) * 0.75) (10 * 0.25)) 0
          (0 + 15 - Rmax ((10 * 2 - 15) * 0.75) (10 * 0.25)) 0 < 10 * 2.
Proof.
  split; [cbn; repeat split; lra|].
  apply (three_abreast_still_overlap 10 tick_boats [] 0 0 15); cbn; try lra.
  constructor.
Defined.

End CollisionExtra.

Module RaceStartExtra.
Import RaceStore Canvas CanvasExt.

Lemma stage_eqb_not_started s : stage_eqb s NotStarted = true <-> s = NotStarted.
Proof. destruct s; cbn; split; congruence. Qed.

(** The race-start effect never touches the phase, the boats or the
    results. While racing, when some active boat is still [Not Started],
    every active boat is set to [Start Leg], also the ones already further
    along the course, and inactive boats keep their stage; otherwise the
    state is left as it is. *)
Theorem race_start_effect_stages bc st :
  let st' := race_start_effect bc st in
  phase st' = phase st /\ boats st' = boats st /\ results st' = results st
  /\ ((is_racing (phase st) = true
       /\ (boat1Stage st = NotStarted
           \/ ((2 <= bc)%nat /\ boat2Stage st = NotStarted)
           \/ ((3 <= bc)%nat /\ boat3Stage st = NotStarted)
           \/ ((4 <= bc)%nat /\ boat4Stage st = NotStarted))) ->
      boat1Stage st' = StartLeg
      /\ boat2Stage st' = (if (2 <=? bc)%nat then StartLeg else boat2Stage st)
      /\ boat3Stage st' = (if (3 <=? bc)%nat then StartLeg else boat3Stage st)
      /\ boat4Stage st' = (if (4 <=? bc)%nat then StartLeg else boat4Stage st))
  /\ (~ (is_racing (phase st) = true
         /\ (boat1Stage st = NotStarted
             \/ ((2 <= bc)%nat /\ boat2Stage st = NotStarted)
             \/ ((3 <= bc)%nat /\ boat3Stage st = NotStarted)
             \/ ((4 <= bc)%nat /\ boat4Stage st = NotStarted))) ->
      st' = st).
Proof.
  destruct st as [ph bs rs s1 s2 s3 s4]; cbn zeta; unfold race_start_effect;
    cbn [phase boats results boat1Stage boat2Stage boat3Stage boat4Stage].
  set (ni := stage_eqb s1 NotStarted || (2 <=? bc)%nat && stage_eqb s2 NotStarted
             || (3 <=? bc)%nat && stage_eqb s3 NotStarted
             || (4 <=? bc)%nat && stage_eqb s4 NotStarted).
  assert (Hni : ni = true <-> (s1 = NotStarted
             \/ ((2 <= bc)%nat /\ s2 = NotStarted)
             \/ ((3 <= bc)%nat /\ s3 = NotStarted)
             \/ ((4 <= bc)%nat /\ s4 = NotStarted))).
  { subst ni. rewrite !orb_true_iff, !andb_true_iff, !Nat.leb_le, !stage_eqb_not_started.
    tauto. }
  destruct (is_racing ph) eqn:Er; destruct ni eqn:En;
    (split; [reflexivity | split; [reflexivity | split; [reflexivity | split]]]).
  - intros _; repeat split.
  - intro H; exfalso; apply H; split; [reflexivity | now apply Hni].
  - intros [_ H]; apply Hni in H; discriminate.
  - intros _; reflexivity.
  - intros [H _]; discriminate.
  - intros _; reflexivity.
  - intros [H _]; discriminate.
  - intros _; reflexivity.
Qed.

End RaceStartExtra.

Module WindExtFacts.
Import Wind WindFacts WindExt.
Local Open Scope R_scope.

Lemma fullSettings_range s :
  fs_windDirectionRange (fullSettings s) = windDirectionRange (locationSettings s).
Proof. destruct s; reflexivity. Qed.

Lemma floor_small q n : 0 <= q < IZR n -> (0 <= floor q <= n - 1)%Z.
Proof.
  intros [H1 H2]. unfold floor. destruct (base_Int_part q) as [B1 B2].
  split.
  - assert (-1 < Int_part q)%Z by (apply lt_IZR; lra). lia.
  - assert (Int_part q < n)%Z by (apply lt_IZR; lra). lia.
Qed.

Lemma adjusted_count_10 s :
  adjusted_count 10 (fullSettings s) = match s with newportharbor => 15%nat | _ => 10%nat end.
Proof.
  destruct s; try reflexivity. cbn [adjusted_count fullSettings fs_puffFrequency].
  unfold floor. rewrite (Int_part_small (INR 10 * 1.5) 15); [reflexivity|].
  simpl INR. lra.
Qed.

(** A cell strength is one of the integers [-2 .. 2]. *)
Definition strength_ok (c : WindCell) : Prop :=
  exists z, strength c = IZR z /\ (-2 <= z <= 2)%Z.

Definition draws_ok (d : CellDraws) : Prop :=
  0 <= dx0 d < 1 /\ 0 <= dx1 d < 1 /\ 0 <= dy d < 1 /\ 0 <= dr d < 1 /\ 0 <= ds d < 1.

Definition drift_ok (d : DriftDraws) : Prop :=
  0 <= ddx d < 1 /\ 0 <= ddy d < 1.

Lemma make_cell_ok fs i d :
  draws_ok d ->
  let c := make_cell fs i d in
  cell_id c = i /\ 0 <= cell_x c < 1000 /\ 0 <= cell_y c < 800
  /\ 50 <= radius c < 150 /\ strength_ok c.
Proof.
  intros (H0 & H1 & H2 & H3 & H4); cbn zeta; unfold make_cell; cbn.
  repeat split; try lra.
  - destruct (fs_puffDistribution fs); [lra|]. destruct (favorLeftSide d); lra.
  - destruct (fs_puffDistribution fs); [lra|]. destruct (favorLeftSide d); lra.
  - exists (floor (ds d * 5) - 2)%Z. rewrite minus_IZR. split; [reflexivity|].
    pose proof (floor_small (ds d * 5) 5 ltac:(simpl; lra)). lia.
Qed.

Lemma clamp_int w : exists z, Rmax (-2) (Rmin 2 (IZR w)) = IZR z /\ (-2 <= z <= 2)%Z.
Proof.
  unfold Rmax, Rmin.
  destruct (Rle_dec 2 (IZR w)) as [H|H].
  - destruct (Rle_dec (-2) 2); [|lra]. exists 2%Z; split; [reflexivity|lia].
  - destruct (Rle_dec (-2) (IZR w)) as [H'|H'].
    + exists w; split; [reflexivity|].
      apply Rnot_le_lt in H. split; [apply le_IZR; exact H'|].
      apply lt_IZR in H. lia.
    + exists (-2)%Z; split; [reflexivity|lia].
Qed.

Lemma drift_cell_ok fs c d :
  drift_ok d -> strength_ok c ->
  let c' := drift_cell fs c d in
  cell_id c' = cell_id c /\ radius c' = radius c
  /\ Rabs (cell_x c' - cell_x c) <= 1 /\ Rabs (cell_y c' - cell_y c) <= 1
  /\ strength_ok c' /\ Rabs (strength c' - strength c) <= 1.
Proof.
  intros [Hx Hy] [z [Hz Hb]]; cbn zeta; unfold drift_cell; cbn.
  repeat split; try reflexivity.
  - apply Rabs_le; lra.
  - apply Rabs_le; lra.
  - destruct (Rlt_dec _ _); [|exists z; auto].
    rewrite Hz. destruct (Rlt_dec 0.5 (dsgn d)).
    + rewrite <- (plus_IZR z 1). apply clamp_int.
    + replace (IZR z + -1) with (IZR (z - 1)) by (rewrite minus_IZR; ring). apply clamp_int.
  - destruct (Rlt_dec _ _); [|rewrite Rminus_diag, Rabs_R0; lra].
    rewrite Hz. apply Rabs_le.
    assert (Hl : -2 <= IZR z <= 2) by (split; apply IZR_le; lia).
    unfold Rmax, Rmin; destruct (Rlt_dec 0.5 (dsgn d));
      [destruct (Rle_dec 2 (IZR z + 1)) | destruct (Rle_dec 2 (IZR z + -1))];
      repeat match goal with |- context [Rle_dec ?a ?b] =>
        let h := fresh in destruct (Rle_dec a b) as [h|h]; [|apply Rnot_le_lt in h] end; lra.
Qed.

Lemma nth_error_combine_seq {A} (l : list A) k i :
  nth_error (combine (seq k (List.length l)) l) i
  = option_map (fun c => (k + i, c)%nat) (nth_error l i).
Proof.
  revert k i; induction l as [|c l IH]; intros k i; [now destruct i|].
  destruct i; cbn; [now rewrite Nat.add_0_r|].
  rewrite IH. destruct (nth_error l i); cbn; [now rewrite Nat.add_succ_r|reflexivity].
Qed.

Lemma length_combine_seq {A} (l : list A) k : List.length (combine (seq k (List.length l)) l) = List.length l.
Proof. rewrite length_combine, length_seq; lia. Qed.

Lemma updateWindCells_nth s draws st i c :
  nth_error (cells st) i = Some c ->
  nth_error (cells (updateWindCells s draws st)) i
  = Some (drift_cell (fullSettings s) c (draws i)).
Proof.
  intro H; unfold updateWindCells; cbn [cells].
  rewrite nth_error_map, nth_error_combine_seq, H. reflexivity.
Qed.

Lemma updateWindCells_length s draws st :
  List.length (cells (updateWindCells s draws st)) = List.length (cells st).
Proof. unfold updateWindCells; cbn [cells]. rewrite length_map. apply length_combine_seq. Qed.

(** The cells at point [(x, y)]: [distance < cell.radius]. *)
Definition covers (x y : R) (c : WindCell) : bool :=
  if Rlt_dec (sqrt ((x - cell_x c) ^ 2 + (y - cell_y c) ^ 2)) (radius c) then true else false.

Definition cover_count (x y : R) (cs : list WindCell) : nat :=
  List.length (filter (covers x y) cs).

Lemma strength_modifier_lower x y cs acc :
  Forall strength_ok cs ->
  acc - 2 * INR (cover_count x y cs) <= strength_modifier x y cs acc.
Proof.
  unfold cover_count. intro H; revert acc; induction H as [|c cs [z [Hz Hb]] _ IH]; intro acc.
  - cbn; lra.
  - cbn [strength_modifier filter]. unfold covers at 1.
    destruct (Rlt_dec _ _) as [Hd|Hd].
    + cbn [List.length]. rewrite S_INR.
      set (dd := sqrt ((x - cell_x c) ^ 2 + (y - cell_y c) ^ 2)) in *.
      assert (Hd0 : 0 <= dd) by apply sqrt_pos.
      assert (Hw : 0 <= dd / radius c < 1).
      { assert (0 < radius c) by lra. split.
        - apply Rmult_le_pos; [lra|]. left; apply Rinv_0_lt_compat; lra.
        - apply (Rmult_lt_reg_r (radius c)); [lra|].
          unfold Rdiv; rewrite Rmult_assoc, Rinv_l by lra; lra. }
      assert (Hs : -2 <= strength c <= 2) by (rewrite Hz; split; apply IZR_le; lia).
      assert (Hm : -2 <= strength c * (1 - dd / radius c)).
      { assert (0 <= (strength c + 2) * (1 - dd / radius c)) by (apply Rmult_le_pos; lra).
        nra. }
      specialize (IH (acc + strength c * (1 - dd / radius c))). lra.
    + apply IH.
Qed.

End WindExtFacts.

Module WindExtFacts2.
Import Wind WindFacts WindExt WindExtFacts.
Local Open Scope R_scope.

Lemma drift_cell_strength_ok fs c d : strength_ok c -> strength_ok (drift_cell fs c d).
Proof.
  intros [z [Hz Hb]]; unfold drift_cell; cbn [strength].
  destruct (Rlt_dec _ _); [|exists z; auto].
  rewrite Hz. destruct (Rlt_dec 0.5 (dsgn d)).
  - rewrite <- (plus_IZR z 1). apply clamp_int.
  - replace (IZR z + -1) with (IZR (z - 1)) by (rewrite minus_IZR; ring). apply clamp_int.
Qed.

Lemma updateWindCells_strength_ok s draws st :
  Forall strength_ok (cells st) -> Forall strength_ok (cells (updateWindCells s draws st)).
Proof.
  intro H. unfold updateWindCells; cbn [cells].
  apply Forall_map, Forall_forall. intros [i c] Hin.
  apply drift_cell_strength_ok. apply in_combine_r in Hin.
  rewrite Forall_forall in H. exact (H c Hin).
Qed.

Lemma updateWindCells_run_inv s calls st :
  Forall strength_ok (cells st) ->
  Forall strength_ok (cells (updateWindCells_run s calls st))
  /\ baseStrength (updateWindCells_run s calls st) = baseStrength st.
Proof.
  unfold updateWindCells_run; revert st; induction calls as [|dr rest IH]; intros st H; cbn.
  - auto.
  - destruct (IH _ (updateWindCells_strength_ok s dr st H)) as [H1 H2].
    split; [exact H1|]. rewrite H2. reflexivity.
Qed.

Lemma createWindCells_ok count fs draws :
  (forall i, draws_ok (draws i)) ->
  map cell_id (createWindCells count fs draws) = seq 0 (adjusted_count count fs)
  /\ Forall (fun c => 0 <= cell_x c < 1000 /\ 0 <= cell_y c < 800
                      /\ 50 <= radius c < 150 /\ strength_ok c)
            (createWindCells count fs draws).
Proof.
  intro H. unfold createWindCells. split.
  - rewrite map_map. erewrite map_ext; [apply map_id|].
    intro i; cbn. destruct (make_cell_ok fs i (draws i) (H i)) as [Hi _]. exact Hi.
  - apply Forall_map, Forall_forall. intros i _.
    destruct (make_cell_ok fs i (draws i) (H i)) as (_ & H1 & H2 & H3 & H4); auto.
Qed.

(** [shift_direction_in_range] from a direction in [[0, 360]]. *)
Lemma shift_direction_in_range_closed range d s :
  0 < range <= 180 -> 0 <= d <= 360 -> -360 < s < 360 ->
  in_wind_range range (shift_direction range d s).
Proof.
  intros Hr Hd Hs. unfold shift_direction, in_wind_range.
  assert (Hnd : exists nd0, js_rem (d + s) 360 = nd0 /\ -360 < nd0 < 360).
  { destruct (Rlt_dec (d + s) 0).
    - exists (d + s); split; [apply js_rem_neg; lra|lra].
    - destruct (Rlt_dec (d + s) 360).
      + exists (d + s); split; [apply js_rem_low; lra|lra].
      + exists (d + s - 360); split; [apply js_rem_high; lra|lra]. }
  destruct Hnd as [nd0 [-> Hn0]].
  set (nd := if Rlt_dec nd0 0 then nd0 + 360 else nd0).
  assert (Hn : 0 <= nd < 360).
  { subst nd; destruct (Rlt_dec nd0 0); lra. }
  clearbody nd.
  destruct (Req_EM_T nd 0); [lra|].
  destruct (Req_EM_T nd 360); [lra|].
  destruct (Rlt_dec 0 nd); [|lra].
  destruct (Rle_dec nd 180).
  - destruct (Rlt_dec range nd); lra.
  - destruct (Rlt_dec nd 360); [|lra].
    destruct (Rlt_dec nd (360 - range)); lra.
Qed.

Lemma update_many_in_range s d draws :
  in_wind_range (windDirectionRange (locationSettings s)) d ->
  Forall (fun rr => 0 <= snd rr < 1) draws ->
  in_wind_range (windDirectionRange (locationSettings s)) (update_many s d draws).
Proof.
  intros Hd Hdr. revert d Hd.
  pose proof (venue_range_bounds s) as Hr.
  induction Hdr as [|[r1 r2] rest Hr2 _ IH]; intros d Hd; cbn; [exact Hd|].
  apply IH. apply shift_direction_in_range_closed; [exact Hr| |apply randomShift_bound; exact Hr2].
  unfold in_wind_range in Hd; lra.
Qed.

Lemma initializeWind_direction s r1 r2 r3 r4 r5 draws :
  0 <= r5 < 1 ->
  let d := direction (initializeWind s r1 r2 r3 r4 r5 draws) in
  let range := windDirectionRange (locationSettings s) in
  (0.5 < r4 /\ 0 <= d < range) \/ (r4 <= 0.5 /\ 360 - range < d <= 360).
Proof.
  intro H5; cbn zeta. unfold initializeWind; cbn [direction].
  rewrite fullSettings_range. pose proof (venue_range_bounds s) as Hr.
  destruct (Rlt_dec 0.5 r4); [left|right]; split; try lra.
  - split; [apply Rmult_le_pos; lra|].
    rewrite <- (Rmult_1_l (windDirectionRange _)) at 2. apply Rmult_lt_compat_r; lra.
  - split.
    + assert (r5 * windDirectionRange (locationSettings s) < windDirectionRange (locationSettings s)).
      { rewrite <- (Rmult_1_l (windDirectionRange _)) at 2. apply Rmult_lt_compat_r; lra. }
      lra.
    + assert (0 <= r5 * windDirectionRange (locationSettings s)) by (apply Rmult_le_pos; lra).
      lra.
Qed.

End WindExtFacts2.

Module WindExtra.
Import Wind WindFacts WindExt WindExtFacts WindExtFacts2.
Local Open Scope R_scope.

(** [initializeWind()] with draws in [[0, 1)]: the current direction is in
    [[0, 360)], the current strength in [[currentMin, currentMax]], the base
    wind strength in [[baseWindStrength, windMaxStrength)], the wind
    direction in [[0, range)] (after a draw above 0.5) or in
    [(360 - range, 360]] (otherwise: 360 itself when the last draw is 0),
    and [tick] is 0. *)
Theorem initializeWind_ranges s r1 r2 r3 r4 r5 draws :
  0 <= r1 < 1 -> 0 <= r2 < 1 -> 0 <= r3 < 1 -> 0 <= r5 < 1 ->
  let st := initializeWind s r1 r2 r3 r4 r5 draws in
  let fs := fullSettings s in
  let range := windDirectionRange (locationSettings s) in
  0 <= currentDirection st < 360
  /\ currentMin fs <= currentStrength st <= currentMax fs
  /\ baseWindStrength fs <= baseStrength st < windMaxStrength fs
  /\ ((0.5 < r4 /\ 0 <= direction st < range)
      \/ (r4 <= 0.5 /\ 360 - range < direction st <= 360))
  /\ (r4 <= 0.5 -> r5 = 0 -> direction st = 360)
  /\ tick st = 0%Z.
Proof.
  intros H1 H2 H3 H5 st fs range.
  pose proof (initializeWind_direction s r1 r2 r3 r4 r5 draws H5) as Hd.
  subst st fs range; cbn zeta in Hd.
  split; [|split; [|split; [|split; [exact Hd|split]]]].
  - unfold initializeWind; cbn [currentDirection]. lra.
  - unfold initializeWind; cbn [currentStrength].
    destruct s; cbn; destruct (Req_EM_T _ _); lra.
  - unfold initializeWind; cbn [baseStrength].
    destruct s; cbn; destruct (Req_EM_T _ _); lra.
  - intros H4 ->. unfold initializeWind; cbn [direction].
    destruct (Rlt_dec 0.5 r4); [lra|]. ring.
  - reflexivity.
Qed.

Lemma initializeWind_ranges_witness :
  (0 <= 0.3 < 1 /\ 0 <= 0.5 < 1 /\ 0 <= 0.25 < 1 /\ 0 <= 0 < 1)
  /\ let st := initializeWind longbeach 0.3 0.5 0.25 0.2 0 (fun _ => mkCellDraws 0.5 true 0.5 0.5 0.5 0.5) in
     let fs := fullSettings longbeach in
     let range := windDirectionRange (locationSettings longbeach) in
     0 <= currentDirection st < 360
     /\ currentMin fs <= currentStrength st <= currentMax fs
     /\ baseWindStrength fs <= baseStrength st < windMaxStrength fs
     /\ ((0.5 < 0.2 /\ 0 <= direction st < range)
         \/ (0.2 <= 0.5 /\ 360 - range < direction st <= 360))
     /\ (0.2 <= 0.5 -> 0 = 0 -> direction st = 360)
     /\ tick st = 0%Z.
Proof.
  split; [repeat split; lra|].
  apply (initializeWind_ranges longbeach 0.3 0.5 0.25 0.2 0); lra.
Defined.

(** [initializeWind()] creates 10 cells (15 at Newport Harbor, whose puff
    frequency is high), numbered [0, 1, ...]; with draws in [[0, 1)] each
    lies on the 1000 x 800 canvas, with a radius in [[50, 150)] and an
    integer strength in [-2 .. 2]. *)
Theorem initializeWind_cells s r1 r2 r3 r4 r5 draws :
  (forall i, draws_ok (draws i)) ->
  let cs := cells (initializeWind s r1 r2 r3 r4 r5 draws) in
  map cell_id cs = seq 0 (match s with newportharbor => 15 | _ => 10 end)%nat
  /\ Forall (fun c => 0 <= cell_x c < 1000 /\ 0 <= cell_y c < 800
                      /\ 50 <= radius c < 150 /\ strength_ok c) cs.
Proof.
  intro H; cbn zeta. unfold initializeWind; cbn [cells].
  rewrite <- adjusted_count_10. apply createWindCells_ok, H.
Qed.

Lemma initializeWind_cells_witness :
  (forall i : nat, draws_ok (mkCellDraws 0.5 false 0.5 0.5 0.5 0.5))
  /\ let cs := cells (initializeWind longbeach 0.3 0.5 0.25 0.2 0
                        (fun _ => mkCellDraws 0.5 false 0.5 0.5 0.5 0.5)) in
     map cell_id cs = seq 0 10
     /\ Forall (fun c => 0 <= cell_x c < 1000 /\ 0 <= cell_y c < 800
                         /\ 50 <= radius c < 150 /\ strength_ok c) cs.
Proof.
  assert (H : forall i : nat, draws_ok (mkCellDraws 0.5 false 0.5 0.5 0.5 0.5))
    by (intros _; unfold draws_ok; cbn; lra).
  split; [exact H|].
  apply (initializeWind_cells longbeach 0.3 0.5 0.25 0.2 0
           (fun _ => mkCellDraws 0.5 false 0.5 0.5 0.5 0.5)).
  exact H.
Defined.

(** The initial wind direction can be 360, outside the band
    [[0, range] ∪ [360 - range, 360)] that [updateWindDirection()] keeps;
    after one or more [updateWindDirection()] calls with draws in [[0, 1)]
    the direction is in that band. *)
Theorem initial_direction_enters_band s r1 r2 r3 r4 r5 draws rr rest :
  0 <= r5 < 1 -> 0 <= snd rr < 1 -> Forall (fun rr => 0 <= snd rr < 1) rest ->
  let range := windDirectionRange (locationSettings s) in
  let d := direction (initializeWind s r1 r2 r3 r4 r5 draws) in
  (in_wind_range range d \/ d = 360)
  /\ in_wind_range range (update_many s d (rr :: rest)).
Proof.
  intros H5 Hrr Hrest range d.
  pose proof (initializeWind_direction s r1 r2 r3 r4 r5 draws H5) as Hd.
  pose proof (venue_range_bounds s) as Hr.
  cbn zeta in Hd. fold d in Hd. fold range in Hd, Hr.
  split.
  - unfold in_wind_range. destruct (Req_dec d 360); [now right|left]. lra.
  - destruct rr as [q1 q2]; cbn [update_many].
    apply update_many_in_range; [|exact Hrest].
    unfold updateWindDirection. fold range.
    apply shift_direction_in_range_closed; [exact Hr|lra|].
    apply randomShift_bound; exact Hrr.
Qed.

Lemma initial_direction_enters_band_witness :
  (0 <= 0 < 1 /\ 0 <= snd (0.7, 0.2) < 1 /\ Forall (fun rr : R * R => 0 <= snd rr < 1) [])
  /\ let range := windDirectionRange (locationSettings newportharbor) in
     let d := direction (initializeWind newportharbor 0.1 0.1 0.1 0.2 0
                           (fun _ => mkCellDraws 0.5 false 0.5 0.5 0.5 0.5)) in
     (in_wind_range range d \/ d = 360)
     /\ in_wind_range range (update_many newportharbor d ((0.7, 0.2) :: [])).
Proof.
  split; [split; [lra | split; [cbn; lra | constructor]]|].
  apply (initial_direction_enters_band newportharbor 0.1 0.1 0.1 0.2 0
           (fun _ => mkCellDraws 0.5 false 0.5 0.5 0.5 0.5) (0.7, 0.2) []);
    [lra | cbn; lra | constructor].
Defined.

(** [updateWindCells()] keeps the number of cells and, cell by cell, the
    id and the radius; with drift draws in [[0, 1)] it moves each cell by
    at most 1 along each axis, and it changes an integer strength in
    [-2 .. 2] by at most 1, to an integer in [-2 .. 2]. *)
Theorem updateWindCells_cells s draws st :
  (forall i, drift_ok (draws i)) ->
  List.length (cells (updateWindCells s draws st)) = List.length (cells st)
  /\ forall i c, nth_error (cells st) i = Some c -> strength_ok c ->
     exists c', nth_error (cells (updateWindCells s draws st)) i = Some c'
       /\ cell_id c' = cell_id c /\ radius c' = radius c
       /\ Rabs (cell_x c' - cell_x c) <= 1 /\ Rabs (cell_y c' - cell_y c) <= 1
       /\ strength_ok c' /\ Rabs (strength c' - strength c) <= 1.
Proof.
  intro Hd. split; [apply updateWindCells_length|].
  intros i c Hc Hok. eexists; split; [apply updateWindCells_nth, Hc|].
  apply drift_cell_ok; [apply Hd|exact Hok].
Qed.

Lemma updateWindCells_cells_witness :
  (forall i : nat, drift_ok (mkDriftDraws 0.9 0.1 0.05 0.7))
  /\ List.length (cells (updateWindCells newportharbor (fun _ => mkDriftDraws 0.9 0.1 0.05 0.7)
                           (mkWindStore 5 0 [mkCell 0 100 100 60 2] 0 0 0)))
     = List.length (cells (mkWindStore 5 0 [mkCell 0 100 100 60 2] 0 0 0))
  /\ forall i c, nth_error (cells (mkWindStore 5 0 [mkCell 0 100 100 60 2] 0 0 0)) i = Some c ->
     strength_ok c ->
     exists c', nth_error (cells (updateWindCells newportharbor
                                    (fun _ => mkDriftDraws 0.9 0.1 0.05 0.7)
                                    (mkWindStore 5 0 [mkCell 0 100 100 60 2] 0 0 0))) i = Some c'
       /\ cell_id c' = cell_id c /\ radius c' = radius c
       /\ Rabs (cell_x c' - cell_x c) <= 1 /\ Rabs (cell_y c' - cell_y c) <= 1
       /\ strength_ok c' /\ Rabs (strength c' - strength c) <= 1.
Proof.
  assert (H : forall i : nat, drift_ok (mkDriftDraws 0.9 0.1 0.05 0.7))
    by (intros _; unfold drift_ok; cbn; lra).
  split; [exact H|].
  apply (updateWindCells_cells newportharbor (fun _ => mkDriftDraws 0.9 0.1 0.05 0.7)
           (mkWindStore 5 0 [mkCell 0 100 100 60 2] 0 0 0)).
  exact H.
Defined.

(** At San Francisco, after [initializeWind()] and any number of
    [updateWindCells()] calls, [getWindAt(x, y)] reads 10 knots at every
    point covered by at most three cells: the venue's 16-28 knot base
    wind is clamped to the 1-10 knot range, and three cells take at most
    6 knots off. *)
Theorem sanfrancisco_reads_ten r1 r2 r3 r4 r5 draws calls x y :
  0 <= r3 < 1 -> (forall i, draws_ok (draws i)) ->
  let st := updateWindCells_run sanfrancisco calls
              (initializeWind sanfrancisco r1 r2 r3 r4 r5 draws) in
  (cover_count x y (cells st) <= 3)%nat ->
  getWindAt st x y = (10, direction st).
Proof.
  intros H3 Hd st Hc.
  assert (Hok0 : Forall strength_ok (cells (initializeWind sanfrancisco r1 r2 r3 r4 r5 draws))).
  { unfold initializeWind; cbn [cells].
    destruct (createWindCells_ok 10 (fullSettings sanfrancisco) draws Hd) as [_ HF].
    eapply Forall_impl; [|exact HF]. cbn; tauto. }
  destruct (updateWindCells_run_inv sanfrancisco calls _ Hok0) as [Hok Hb].
  fold st in Hok, Hb.
  assert (Hb0 : 16 <= baseStrength st).
  { rewrite Hb. unfold initializeWind; cbn [baseStrength].
    destruct (Req_EM_T _ _) as [E|E]; cbn in E |- *; [lra|].
    assert (0 <= r3 * (28 - 16)) by (apply Rmult_le_pos; lra). lra. }
  pose proof (strength_modifier_lower x y (cells st) 0 Hok) as Hm.
  apply le_INR in Hc. replace (INR 3) with 3 in Hc by (simpl; lra).
  unfold getWindAt. f_equal.
  assert (E : Rmin 10 (baseStrength st + strength_modifier x y (cells st) 0) = 10).
  { apply Rmin_left. lra. }
  rewrite E. apply Rmax_right. lra.
Qed.

(** Cell draws putting cells 0, 1 and 2 at [(100, 80)] with radius 100
    and strength -2, and the other cells at [(900, 720)]. *)
Definition sf_cell_draws (i : nat) : CellDraws :=
  if Nat.ltb i 3 then mkCellDraws 0.1 false 0.5 0.1 0.5 0
  else mkCellDraws 0.9 false 0.5 0.9 0.5 0.5.

(** Drift draws with no drift and a strength step of -1. *)
Definition sf_drift (i : nat) : DriftDraws := mkDriftDraws 0.5 0.5 0.05 0.2.

Lemma sf_cover_count :
  cover_count 100 80 (cells (updateWindCells_run sanfrancisco [sf_drift]
    (initializeWind sanfrancisco 0.1 0.1 0 0.7 0.3 sf_cell_draws))) = 3%nat.
Proof.
  set (fs := fullSettings sanfrancisco).
  assert (Ec : cells (updateWindCells_run sanfrancisco [sf_drift]
                 (initializeWind sanfrancisco 0.1 0.1 0 0.7 0.3 sf_cell_draws))
               = map (fun i => drift_cell fs (make_cell fs i (sf_cell_draws i)) (sf_drift i))
                     (seq 0 10)) by reflexivity.
  assert (Hc : forall i, covers 100 80 (drift_cell fs (make_cell fs i (sf_cell_draws i)) (sf_drift i))
                         = Nat.ltb i 3).
  { intro i. unfold sf_cell_draws. destruct (Nat.ltb i 3).
    - unfold covers, drift_cell, make_cell, fs, sf_drift;
        cbn [cell_x cell_y radius dx0 dy dr ddx ddy fs_puffDistribution fullSettings].
      match goal with |- context [sqrt (?a ^ 2 + ?b ^ 2)] =>
        replace a with 0 by lra; replace b with 0 by lra end.
      replace (0 ^ 2 + 0 ^ 2) with 0 by ring.
      rewrite sqrt_0. destruct (Rlt_dec _ _); [reflexivity|lra].
    - unfold covers, drift_cell, make_cell, fs, sf_drift;
        cbn [cell_x cell_y radius dx0 dy dr ddx ddy fs_puffDistribution fullSettings].
      match goal with |- context [sqrt (?a ^ 2 + ?b ^ 2)] =>
        replace a with (-800) by lra; replace b with (-640) by lra end.
      replace ((-800) ^ 2 + (-640) ^ 2) with (800 * 800 + 640 * 640) by ring.
      destruct (Rlt_dec _ _) as [H|]; [exfalso|reflexivity].
      assert (Hs : 800 <= sqrt (800 * 800 + 640 * 640)).
      { rewrite <- (sqrt_square 800) at 1 by lra. apply sqrt_le_1_alt. nra. }
      lra. }
  unfold cover_count. rewrite Ec. cbn [seq map filter].
  rewrite !Hc. reflexivity.
Qed.

(** Three cells of strength -2 cover [(100, 80)] at their centre, so there
    the base wind of 16 knots loses the full 6 knots. *)
Lemma sanfrancisco_reads_ten_witness :
  (0 <= 0 < 1 /\ (forall i : nat, draws_ok (sf_cell_draws i))
   /\ (cover_count 100 80 (cells (updateWindCells_run sanfrancisco [sf_drift]
        (initializeWind sanfrancisco 0.1 0.1 0 0.7 0.3 sf_cell_draws))) <= 3)%nat)
  /\ cover_count 100 80 (cells (updateWindCells_run sanfrancisco [sf_drift]
        (initializeWind sanfrancisco 0.1 0.1 0 0.7 0.3 sf_cell_draws))) = 3%nat
  /\ getWindAt (updateWindCells_run sanfrancisco [sf_drift]
        (initializeWind sanfrancisco 0.1 0.1 0 0.7 0.3 sf_cell_draws)) 100 80
     = (10, direction (updateWindCells_run sanfrancisco [sf_drift]
        (initializeWind sanfrancisco 0.1 0.1 0 0.7 0.3 sf_cell_draws))).
Proof.
  assert (H : forall i : nat, draws_ok (sf_cell_draws i)).
  { intro i; unfold draws_ok, sf_cell_draws; destruct (Nat.ltb i 3); cbn; lra. }
  pose proof sf_cover_count as Hc.
  split; [split; [lra | split; [exact H | rewrite Hc; lia]]|].
  split; [exact Hc|].
  apply (sanfrancisco_reads_ten 0.1 0.1 0 0.7 0.3 sf_cell_draws [sf_drift] 100 80);
    [lra | exact H | rewrite Hc; lia].
Defined.

End WindExtra.
